(** * GGroupsEntityProvider: the Google Workspace groups entity provider

    A shallow embedding of [GGroupsEntityProvider.run] (the catalog entity
    provider that syncs Google Workspace groups and their members into the
    Backstage catalog) and the properties of one run.

    The provider talks to three collaborators: the configuration accessor,
    the Admin SDK directory client and the catalog connection (the sink).
    A run is modelled as a computation over the history of the effects it
    has performed so far; the collaborators answer as functions of that
    history, so that the same request may be answered differently at
    different times. *)

From Stdlib Require Import String Ascii List ZArith Lia.
From stdpp Require Import base option list strings gmap.

Open Scope string_scope.
Open Scope list_scope.

(** ** Directory records (admin_directory_v1.Schema$Group / Schema$Member)

    Every field of the SDK's schema types is optional ([string | null |
    undefined]); the source reads them through [as string] casts, which
    do nothing at run time.  [None] stands for a missing field. *)

Module Group.
Record t : Type := mk {
  id : option string;
  name : option string;
  description : option string;
  email : option string
}.
End Group.

Module Member.
Record t : Type := mk {
  id : option string;
  email : option string
}.
End Member.

(** The response of [groups.list]: [data.groups] may be absent,
    [request.responseURL] is the resolved URL of the request. *)
Record GroupsResponse : Type := {
  data_groups : option (list Group.t);
  request_responseURL : string
}.

(** The response of [members.list]: [data.members] may be absent. *)
Record MembersResponse : Type := {
  data_members : option (list Member.t)
}.

Record GroupsListParams : Type := {
  customer : string;
  query : option string
}.

Record MembersListParams : Type := {
  groupKey : option string
}.

(** ** Catalog entities *)

Definition ANNOTATION_LOCATION : string := "backstage.io/managed-by-location".
Definition ANNOTATION_ORIGIN_LOCATION : string :=
  "backstage.io/managed-by-origin-location".

Module Metadata.
Record t : Type := mk {
  uid : option string;
  name : string;
  description : option string;
  tags : list string;
  annotations : gmap string string
}.
End Metadata.

Module GroupSpec.
Record t : Type := mk {
  type : string;
  profile_displayName : option string;
  profile_email : option string;
  members : list string;
  children : list string
}.
End GroupSpec.

Module UserSpec.
Record t : Type := mk {
  profile_email : option string;
  memberOf : list string
}.
End UserSpec.

Module GroupEntity.
Record t : Type := mk {
  apiVersion : string;
  kind : string;
  metadata : Metadata.t;
  spec : GroupSpec.t
}.

(** [groupEntity.spec.members?.push(n)] *)
Definition push_member (g : t) (n : string) : t :=
    {| apiVersion := apiVersion g;
       kind := kind g;
       metadata := metadata g;
       spec :=
         {| GroupSpec.type := GroupSpec.type (spec g);
            GroupSpec.profile_displayName :=
              GroupSpec.profile_displayName (spec g);
            GroupSpec.profile_email := GroupSpec.profile_email (spec g);
            GroupSpec.members := GroupSpec.members (spec g) ++ [n];
            GroupSpec.children := GroupSpec.children (spec g) |} |}.
End GroupEntity.

Module UserEntity.
Record t : Type := mk {
  apiVersion : string;
  kind : string;
  metadata : Metadata.t;
  spec : UserSpec.t
}.
End UserEntity.

(** [Entity]: the common supertype of the two entity shapes. *)
Module Entity.
Inductive t : Type :=
    | OfGroup (g : GroupEntity.t)
    | OfUser (u : UserEntity.t).

Definition kind (e : t) : string :=
    match e with
    | OfGroup g => GroupEntity.kind g
    | OfUser u => UserEntity.kind u
    end.

Definition metadata (e : t) : Metadata.t :=
    match e with
    | OfGroup g => GroupEntity.metadata g
    | OfUser u => UserEntity.metadata u
    end.
End Entity.

(** ** The mutation handed to the sink (EntityProviderMutation) *)

Record DeferredEntity : Type := {
  entity : Entity.t;
  locationKey : option string
}.

Inductive Mutation : Type :=
  | MutationFull (entities : list DeferredEntity)
  | MutationDelta (added removed : list DeferredEntity).

(** ** Errors, by the place they are raised *)

Inductive Error : Type :=
  | ProviderError (message : string)      (* [new Error(...)] thrown by run *)
  | ConfigError (message : string)        (* thrown by the config accessor *)
  | DirectoryApiError (message : string)  (* rejection of a directory call *)
  | TypeError (message : string)          (* property read on undefined *)
  | SinkError (message : string).         (* rejection of applyMutation *)

(** ** Effects of a run, with the answer each one received *)

Inductive Event : Type :=
  | LogError (e : Error)
  | GroupsList (params : GroupsListParams) (res : string + GroupsResponse)
  | MembersList (params : MembersListParams) (res : string + MembersResponse)
  | Sleep (ms : Z)
  | ApplyMutation (m : Mutation) (res : option string).

Definition History : Type := list Event.

(** ** Collaborators *)

Record Config : Type := {
  getString : string -> string + string;
  getOptionalStringArray : string -> string + option (list string)
}.

Record Directory : Type := {
  groups_list : History -> GroupsListParams -> string + GroupsResponse;
  members_list : History -> MembersListParams -> string + MembersResponse
}.

Record Connection : Type := {
  applyMutation : History -> Mutation -> option string
}.

Record Provider : Type := {
  config : Config;
  connection : option Connection;
  directoryApiClient : option Directory
}.

Definition connect (this : Provider) (c : Connection) : Provider :=
  {| config := config this;
     connection := Some c;
     directoryApiClient := directoryApiClient this |}.

Definition getProviderName : string := "ggroups".

(** ** The monad of a run: errors over a growing history *)

Definition Run (A : Type) : Type := History -> (Error + A) * History.

Definition ret {A} (a : A) : Run A := fun h => (inr a, h).

Definition throw {A} (e : Error) : Run A := fun h => (inl e, h).

Definition bind {A B} (m : Run A) (k : A -> Run B) : Run B :=
  fun h =>
    match m h with
    | (inl e, h') => (inl e, h')
    | (inr a, h') => k a h'
    end.

Notation "'let*' x ':=' m 'in' k" := (bind m (fun x => k))
  (at level 10, x pattern, m at level 100, k at level 200).

Definition emit (e : Event) : Run unit := fun h => (inr tt, h ++ [e]).

Definition logger_error (e : Error) : Run unit := emit (LogError e).

Definition liftConfig {A} (r : string + A) : Run A :=
  match r with
  | inl m => throw (ConfigError m)
  | inr a => ret a
  end.

Definition call_groups_list (client : Directory) (p : GroupsListParams)
  : Run GroupsResponse :=
  fun h =>
    let r := groups_list client h p in
    (match r with
     | inl m => inl (DirectoryApiError m)
     | inr resp => inr resp
     end, h ++ [GroupsList p r]).

Definition call_members_list (client : Directory) (p : MembersListParams)
  : Run MembersResponse :=
  fun h =>
    let r := members_list client h p in
    (match r with
     | inl m => inl (DirectoryApiError m)
     | inr resp => inr resp
     end, h ++ [MembersList p r]).

Definition call_applyMutation (conn : Connection) (m : Mutation) : Run unit :=
  fun h =>
    let r := applyMutation conn h m in
    (match r with
     | Some msg => inl (SinkError msg)
     | None => inr tt
     end, h ++ [ApplyMutation m r]).

Definition setTimeout (ms : Z) : Run unit := emit (Sleep ms).

(** ** JavaScript helpers *)

(** [s.split(sep)[0]]: the part of [s] before the first [sep], all of [s]
    when [sep] does not occur. *)
Fixpoint split_head (sep : ascii) (s : string) : string :=
  match s with
  | EmptyString => EmptyString
  | String c rest =>
      if Ascii.eqb c sep then EmptyString else String c (split_head sep rest)
  end.

(** [allow.includes(x)] for an array of strings [allow]; a missing [x]
    is equal to no string. *)
Definition includes (allow : list string) (x : option string) : bool :=
  match x with
  | Some s => existsb (String.eqb s) allow
  | None => false
  end.

(** The object literal with the two provenance annotations. *)
Definition locationAnnotations (url : string) : gmap string string :=
  <[ANNOTATION_ORIGIN_LOCATION := "ggroups:" +:+ url]>
    (<[ANNOTATION_LOCATION := "ggroups:" +:+ url]> ∅).


(** ** The provider's run *)

Section Run.

(** lodash's [kebabCase], applied to a string that may be missing. *)
Variable kebabCase : option string -> string.

(** [groupsResponse.request.responseURL], where [groupsResponse] is the
    variable declared without a value at line 120. *)
Definition responseURL (groupsResponse : option GroupsResponse) : Run string :=
  match groupsResponse with
  | Some r => ret (request_responseURL r)
  | None =>
      throw (TypeError "Cannot read properties of undefined (reading 'request')")
  end.

(** Lines 146-168: the group entity, with no member yet. *)
Definition newGroupEntity (url : string) (ggroup : Group.t) : GroupEntity.t :=
  {| GroupEntity.apiVersion := "backstage.io/v1alpha1";
     GroupEntity.kind := "Group";
     GroupEntity.metadata :=
       {| Metadata.uid := Group.id ggroup;
          Metadata.name := kebabCase (Group.name ggroup);
          Metadata.description := Group.description ggroup;
          Metadata.tags := ["google-groups"];
          Metadata.annotations := locationAnnotations url |};
     GroupEntity.spec :=
       {| GroupSpec.type := "team";
          GroupSpec.profile_displayName := Group.name ggroup;
          GroupSpec.profile_email := Group.email ggroup;
          GroupSpec.members := [];
          GroupSpec.children := [] |} |}.

(** Lines 175-193: the user entity of a member whose name is [name]. *)
Definition newUserEntity (url : string) (groupEntity : GroupEntity.t)
    (ggroupMember : Member.t) (name : string) : UserEntity.t :=
  {| UserEntity.apiVersion := "backstage.io/v1alpha1";
     UserEntity.kind := "User";
     UserEntity.metadata :=
       {| Metadata.uid := Member.id ggroupMember;
          Metadata.name := name;
          Metadata.description := None;
          Metadata.tags := ["google-groups"];
          Metadata.annotations := locationAnnotations url |};
     UserEntity.spec :=
       {| UserSpec.profile_email := Member.email ggroupMember;
          UserSpec.memberOf := [Metadata.name (GroupEntity.metadata groupEntity)] |} |}.

(** [(ggroupMember.email as string).split('@')[0]]: reading [split] on a
    missing email throws a TypeError.  [None] stands for a field that is
    absent; the message is the one JavaScript gives for [undefined].  An
    email that is [null] throws the same TypeError at the same place with
    [null] in place of [undefined] in its message, which [None] cannot
    tell apart: statements about both cases leave the message open. *)
Definition memberName (ggroupMember : Member.t) : Run string :=
  match Member.email ggroupMember with
  | Some e => ret (split_head "@" e)
  | None =>
      throw (TypeError "Cannot read properties of undefined (reading 'split')")
  end.

(** Lines 174-197: the loop over the members of one group. *)
Fixpoint forEachMember (url : string) (members : list Member.t)
    (groupEntity : GroupEntity.t) (entities : list Entity.t)
  : Run (GroupEntity.t * list Entity.t) :=
  match members with
  | [] => ret (groupEntity, entities)
  | ggroupMember :: rest =>
      let* name := memberName ggroupMember in
      let userEntity := newUserEntity url groupEntity ggroupMember name in
      forEachMember url rest
        (GroupEntity.push_member groupEntity
           (Metadata.name (UserEntity.metadata userEntity)))
        (entities ++ [Entity.OfUser userEntity])
  end.

(** Lines 144-210: the loop over the surviving groups.  [groupsResponse] is
    not assigned inside the loop, so its URL is read once per group. *)
Fixpoint forEachGroup (client : Directory)
    (groupsResponse : option GroupsResponse) (ggroups : list Group.t)
    (entities : list Entity.t) : Run (list Entity.t) :=
  match ggroups with
  | [] => ret entities
  | ggroup :: rest =>
      let* url := responseURL groupsResponse in
      let groupEntity := newGroupEntity url ggroup in
      let* ggroupMembersResponse :=
        call_members_list client {| groupKey := Group.id ggroup |} in
      let* (groupEntity', entities') :=
        forEachMember url (default [] (data_members ggroupMembersResponse))
          groupEntity entities in
      let entities'' := entities' ++ [Entity.OfGroup groupEntity'] in
      let* _ := setTimeout 1000 in
      forEachGroup client groupsResponse rest entities''
  end.

(** Lines 129-135: one listing call per query expression. *)
Fixpoint forEachQuery (client : Directory) (customerIdConfig : string)
    (queryConfig : list string) (groupsResponse : option GroupsResponse)
    (ggroups : list Group.t) : Run (option GroupsResponse * list Group.t) :=
  match queryConfig with
  | [] => ret (groupsResponse, ggroups)
  | query :: rest =>
      let* resp :=
        call_groups_list client
          {| customer := customerIdConfig; query := Some query |} in
      forEachQuery client customerIdConfig rest (Some resp)
        (ggroups ++ default [] (data_groups resp))
  end.

(** Lines 75-87: the lifecycle checks. *)
Definition checkLifecycle (this : Provider) : Run (Connection * Directory) :=
  let* conn :=
    match connection this with
    | Some c => ret c
    | None =>
        let error := ProviderError "Provider connection not initialized." in
        let* _ := logger_error error in
        throw error
    end in
  let* client :=
    match directoryApiClient this with
    | Some c => ret c
    | None =>
        let error :=
          ProviderError
            "Google Admin SDK Directory API client not initialized." in
        let* _ := logger_error error in
        throw error
    end in
  ret (conn, client).

(** Lines 89-118: the configuration, read and validated. *)
Definition readConfig (cfg : Config)
  : Run (string * option (list string) * option (list string)) :=
  let* customerIdConfig :=
    match getString cfg "google.providers.ggroups.customerId" with
    | inr s => ret s
    | inl m =>
        let configError := ConfigError m in
        let* _ := logger_error configError in
        throw configError
    end in
  let* groupsConfig :=
    liftConfig (getOptionalStringArray cfg "google.providers.ggroups.groups") in
  let* queryConfig :=
    liftConfig (getOptionalStringArray cfg "google.providers.ggroups.query") in
  let* _ :=
    match groupsConfig, queryConfig with
    | Some _, Some _ =>
        let error :=
          ProviderError
            "Neither google.providers.ggroups.groups or google.providers.ggroups.query are defined as config values." in
        let* _ := logger_error error in
        throw error
    | _, _ => ret tt
    end in
  let* _ :=
    match queryConfig with
    | Some [] =>
        let error :=
          ProviderError
            "google.providers.ggroups.query array has no query expressions defined." in
        let* _ := logger_error error in
        throw error
    | _ => ret tt
    end in
  ret (customerIdConfig, groupsConfig, queryConfig).

(** Lines 120-136: the groups of the customer, by one call or by one call
    per query expression.  Without a query list [ggroups] is whatever the
    response carries, possibly nothing. *)
Definition fetchGroups (client : Directory) (customerIdConfig : string)
    (queryConfig : option (list string))
  : Run (option GroupsResponse * option (list Group.t)) :=
  match queryConfig with
  | None =>
      let* groupsResponse :=
        call_groups_list client
          {| customer := customerIdConfig; query := None |} in
      ret (Some groupsResponse, data_groups groupsResponse)
  | Some queries =>
      let* (groupsResponse, ggroups) :=
        forEachQuery client customerIdConfig queries None [] in
      ret (groupsResponse, Some ggroups)
  end.

(** Lines 138-140: [ggroups?.filter(g => groupsConfig?.includes(g.email))]
    when the allow-list is set. *)
Definition filterGroups (groupsConfig : option (list string))
    (ggroups : option (list Group.t)) : option (list Group.t) :=
  match groupsConfig with
  | Some allow =>
      option_map (List.filter (fun ggroup => includes allow (Group.email ggroup)))
        ggroups
  | None => ggroups
  end.

(** Lines 72-210: everything before the sink is looked at: the connection
    and the entities built. *)
Definition collect (this : Provider) : Run (Connection * list Entity.t) :=
  let* (conn, client) := checkLifecycle this in
  let* (customerIdConfig, groupsConfig, queryConfig) :=
    readConfig (config this) in
  let* (groupsResponse, ggroups) :=
    fetchGroups client customerIdConfig queryConfig in
  let ggroups := filterGroups groupsConfig ggroups in
  let* entities :=
    forEachGroup client groupsResponse (default [] ggroups) [] in
  ret (conn, entities).

(** Line 220: the location key of an entity. *)
Definition deferred (e : Entity.t) : DeferredEntity :=
  {| entity := e;
     locationKey :=
       Metadata.annotations (Entity.metadata e) !! ANNOTATION_LOCATION |}.

(** Lines 212-222: nothing for no entity, else one full mutation. *)
Definition submit (conn : Connection) (entities : list Entity.t) : Run unit :=
  match entities with
  | [] => ret tt
  | _ :: _ => call_applyMutation conn (MutationFull (map deferred entities))
  end.

Definition run (this : Provider) : Run unit :=
  let* (conn, entities) := collect this in
  submit conn entities.

End Run.

(** ** What a history shows *)

Definition sinkMutation (e : Event) : option Mutation :=
  match e with
  | ApplyMutation m _ => Some m
  | _ => None
  end.

Definition groupsListCall (e : Event) : option GroupsListParams :=
  match e with
  | GroupsList p _ => Some p
  | _ => None
  end.

Definition membersListCall (e : Event) : option MembersListParams :=
  match e with
  | MembersList p _ => Some p
  | _ => None
  end.

(** The mutations handed to the sink, the listing calls and the member
    calls of a history, each in the order they were issued. *)
Definition applyMutations (h : History) : list Mutation := omap sinkMutation h.
Definition groupsListCalls (h : History) : list GroupsListParams :=
  omap groupsListCall h.
Definition membersListCalls (h : History) : list MembersListParams :=
  omap membersListCall h.

Definition isLog (e : Event) : Prop :=
  match e with LogError _ => True | _ => False end.

Definition isGroupsList (e : Event) : Prop :=
  match e with GroupsList _ _ => True | _ => False end.

Definition isLoopEvent (e : Event) : Prop :=
  match e with MembersList _ _ | Sleep _ => True | _ => False end.

Definition notSink (e : Event) : Prop := sinkMutation e = None.

(** [m] only appends to the history, and only events satisfying [P]. *)
Definition emits {A} (P : Event -> Prop) (m : Run A) : Prop :=
  forall h, exists new, snd (m h) = h ++ new /\ Forall P new.

(** ** The entities of one group, in closed form *)

Definition groupsOf (r : GroupsResponse) : list Group.t :=
  default [] (data_groups r).

Definition membersOf (r : MembersResponse) : list Member.t :=
  default [] (data_members r).

Definition hasEmail (m : Member.t) : bool :=
  match Member.email m with Some _ => true | None => false end.

Definition nameOf (m : Member.t) : string :=
  split_head "@" (default "" (Member.email m)).

Section Closed.

Variable kebabCase : option string -> string.

Definition userOf (url : string) (g : Group.t) (m : Member.t) : UserEntity.t :=
  newUserEntity url (newGroupEntity kebabCase url g) m (nameOf m).

Definition groupOf (url : string) (g : Group.t) (ms : list Member.t)
  : GroupEntity.t :=
  fold_left GroupEntity.push_member (nameOf <$> ms)
    (newGroupEntity kebabCase url g).

Definition entitiesOf (url : string) (g : Group.t) (ms : list Member.t)
  : list Entity.t :=
  (Entity.OfUser ∘ userOf url g <$> ms) ++ [Entity.OfGroup (groupOf url g ms)].

(** The entities of a sequence of groups, each with the answer to its
    member call. *)
Fixpoint built (url : string) (gs : list Group.t) (rs : list MembersResponse)
  : list Entity.t :=
  match gs, rs with
  | g :: gs', r :: rs' => entitiesOf url g (membersOf r) ++ built url gs' rs'
  | _, _ => []
  end.

End Closed.

(** The events of the loop over a sequence of groups. *)
Fixpoint loopEvents (gs : list Group.t) (rs : list MembersResponse) : History :=
  match gs, rs with
  | g :: gs', r :: rs' =>
      MembersList {| groupKey := Group.id g |} (inr r) :: Sleep 1000
        :: loopEvents gs' rs'
  | _, _ => []
  end.

(** The events of the listing calls of a query list. *)
Fixpoint queryEvents (customerIdConfig : string) (qs : list string)
    (rs : list GroupsResponse) : History :=
  match qs, rs with
  | q :: qs', r :: rs' =>
      GroupsList {| customer := customerIdConfig; query := Some q |} (inr r)
        :: queryEvents customerIdConfig qs' rs'
  | _, _ => []
  end.

(** ** What the listing calls of a history returned *)

Definition listingResponse (e : Event) : option GroupsResponse :=
  match e with
  | GroupsList _ (inr r) => Some r
  | _ => None
  end.

Definition listingResponses (h : History) : list GroupsResponse :=
  omap listingResponse h.

Definition listedGroups (h : History) : list Group.t :=
  concat (groupsOf <$> listingResponses h).

Definition lastURL (h : History) : string :=
  from_option request_responseURL "" (last (listingResponses h)).

Definition keep (groupsConfig : option (list string)) (gs : list Group.t)
  : list Group.t :=
  match groupsConfig with
  | Some allow => List.filter (fun g => includes allow (Group.email g)) gs
  | None => gs
  end.

Definition validConfig (gc qc : option (list string)) : Prop :=
  (gc = None \/ qc = None) /\ qc <> Some [].

(** The shape of the listing events of a run that got past them: a single
    unfiltered call, or one call per query expression. *)
Definition fetchedBy (customerIdConfig : string) (qc : option (list string))
    (new : History) : Prop :=
  match qc with
  | None =>
      exists resp,
        new = [GroupsList {| customer := customerIdConfig; query := None |}
                 (inr resp)]
  | Some qs =>
      exists rs, length rs = length qs /\ new = queryEvents customerIdConfig qs rs
  end.

(** The listing calls a configuration asks for. *)
Definition listingParams (customerIdConfig : string) (qc : option (list string))
  : list GroupsListParams :=
  match qc with
  | None => [{| customer := customerIdConfig; query := None |}]
  | Some qs =>
      (fun q => {| customer := customerIdConfig; query := Some q |}) <$> qs
  end.

Definition memberKey (g : Group.t) : MembersListParams :=
  {| groupKey := Group.id g |}.

Definition asGroup (e : Entity.t) : option GroupEntity.t :=
  match e with
  | Entity.OfGroup g => Some g
  | Entity.OfUser _ => None
  end.

(** The group entities among a sequence of entities, in order. *)
Definition groupEntities (ents : list Entity.t) : list GroupEntity.t :=
  omap asGroup ents.

Definition noListing (e : Event) : Prop := groupsListCall e = None.

Definition isFailedListing (e : Event) : Prop :=
  match e with GroupsList _ (inl _) => True | _ => False end.

(** ** Sample collaborators *)

(** A stand-in for lodash's [kebabCase] on plain ASCII names: letters are
    lowered and blanks become dashes. *)
Definition kebabChar (c : ascii) : ascii :=
  let n := nat_of_ascii c in
  if (n =? 32)%nat then "-"%char
  else if ((65 <=? n)%nat && (n <=? 90)%nat)%bool then ascii_of_nat (n + 32)
  else c.

Fixpoint kebabString (s : string) : string :=
  match s with
  | EmptyString => EmptyString
  | String c rest => String (kebabChar c) (kebabString rest)
  end.

Definition kebabAscii (s : option string) : string :=
  kebabString (default "" s).

Definition sampleConfig (customerId : string + string)
    (groups query : option (list string)) : Config :=
  {| getString := fun key =>
       if String.eqb key "google.providers.ggroups.customerId"
       then customerId else inl ("Missing required config value at '" +:+ key +:+ "'");
     getOptionalStringArray := fun key =>
       if String.eqb key "google.providers.ggroups.groups" then inr groups
       else if String.eqb key "google.providers.ggroups.query" then inr query
       else inr None |}.

Definition g1 : Group.t :=
  Group.mk (Some "g1") (Some "Team One") (Some "first team") (Some "g1@x.com").

Definition g2 : Group.t :=
  Group.mk (Some "g2") (Some "Team Two") None (Some "g2@x.com").

Definition jdoe : Member.t := Member.mk (Some "m1") (Some "jdoe@example.com").

Definition asmith : Member.t := Member.mk (Some "m2") (Some "asmith@example.com").

(** A member of type CUSTOMER: the directory returns no email for it. *)
Definition wholeDomain : Member.t := Member.mk (Some "C12nfslfo") None.

Definition urlAll : string :=
  "https://admin.googleapis.com/admin/directory/v1/groups?customer=C12nfslfo".
Definition urlA : string :=
  "https://admin.googleapis.com/admin/directory/v1/groups?customer=C12nfslfo&query=a".
Definition urlB : string :=
  "https://admin.googleapis.com/admin/directory/v1/groups?customer=C12nfslfo&query=b".

Definition answerAll : GroupsResponse :=
  {| data_groups := Some [g1; g2]; request_responseURL := urlAll |}.
Definition answerA : GroupsResponse :=
  {| data_groups := Some [g1]; request_responseURL := urlA |}.
Definition answerB : GroupsResponse :=
  {| data_groups := Some [g2]; request_responseURL := urlB |}.

(** An answer without a groups field. *)
Definition answerNone : GroupsResponse :=
  {| data_groups := None; request_responseURL := urlAll |}.

Definition membersG1 : MembersResponse := {| data_members := Some [jdoe; asmith] |}.
Definition membersNone : MembersResponse := {| data_members := None |}.
Definition membersDomain : MembersResponse :=
  {| data_members := Some [jdoe; wholeDomain] |}.

(** A directory with two groups; query [a] matches the first, query [b]
    the second, any other query is answered without a groups field. *)
Definition sampleDirectory : Directory :=
  {| groups_list := fun _ p =>
       match query p with
       | None => inr answerAll
       | Some q =>
           if String.eqb q "a" then inr answerA
           else if String.eqb q "b" then inr answerB
           else inr answerNone
       end;
     members_list := fun _ p =>
       match groupKey p with
       | Some k => if String.eqb k "g1" then inr membersG1 else inr membersNone
       | None => inl "Missing required parameters: groupKey"
       end |}.

(** A directory whose only group has the whole domain as a member. *)
Definition domainDirectory : Directory :=
  {| groups_list := fun _ _ =>
       inr {| data_groups := Some [g1]; request_responseURL := urlAll |};
     members_list := fun _ _ => inr membersDomain |}.

(** A directory that answers the listing call without a groups field. *)
Definition emptyDirectory : Directory :=
  {| groups_list := fun _ _ => inr answerNone;
     members_list := fun _ _ => inr membersNone |}.

(** A directory that rejects every member call but the one for [g1]. *)
Definition brokenDirectory : Directory :=
  {| groups_list := groups_list sampleDirectory;
     members_list := fun _ p =>
       match groupKey p with
       | Some k =>
           if String.eqb k "g1" then inr membersG1
           else inl "503 Service Unavailable"
       | None => inl "Missing required parameters: groupKey"
       end |}.

Definition sampleSink : Connection := {| applyMutation := fun _ _ => None |}.

Definition sampleProvider (groups query : option (list string))
    (d : Directory) : Provider :=
  {| config := sampleConfig (inr "C12nfslfo") groups query;
     connection := Some sampleSink;
     directoryApiClient := Some d |}.

Definition allGroupsProvider : Provider :=
  sampleProvider None None sampleDirectory.
Definition allowProvider : Provider :=
  sampleProvider (Some ["g1@x.com"]) None sampleDirectory.
Definition emptyAllowProvider : Provider :=
  sampleProvider (Some []) None sampleDirectory.
Definition twoQueriesProvider : Provider :=
  sampleProvider None (Some ["a"; "b"]) sampleDirectory.
Definition bothListsProvider : Provider :=
  sampleProvider (Some ["g1@x.com"]) (Some ["a"; "b"]) sampleDirectory.
Definition domainProvider : Provider :=
  sampleProvider None None domainDirectory.
Definition noGroupsFieldProvider : Provider :=
  sampleProvider None None emptyDirectory.
Definition brokenProvider : Provider :=
  sampleProvider None None brokenDirectory.

(** A provider on which [connect] has not been called. *)
Definition unconnected : Provider :=
  {| config := sampleConfig (inr "C12nfslfo") None None;
     connection := None;
     directoryApiClient := Some sampleDirectory |}.

Definition listAll : GroupsListParams :=
  {| customer := "C12nfslfo"; query := None |}.

(** ** More sample collaborators *)

(** A configuration without [customerId]. *)
Definition noCustomerProvider : Provider :=
  {| config :=
       sampleConfig
         (inl "Missing required config value at 'google.providers.ggroups.customerId'")
         None None;
     connection := Some sampleSink;
     directoryApiClient := Some sampleDirectory |}.

(** A configuration whose allow-list is not a list of strings. *)
Definition badGroupsProvider : Provider :=
  {| config :=
       {| getString := fun _ => inr "C12nfslfo";
          getOptionalStringArray := fun key =>
            if String.eqb key "google.providers.ggroups.groups"
            then inl "Invalid type in config for key 'google.providers.ggroups.groups'"
            else inr None |};
     connection := Some sampleSink;
     directoryApiClient := Some sampleDirectory |}.

Definition emptyQueryProvider : Provider :=
  sampleProvider None (Some []) sampleDirectory.
Definition allowAndEmptyQueryProvider : Provider :=
  sampleProvider (Some ["g1@x.com"]) (Some []) sampleDirectory.

(** A directory with 601 groups, none with a members field. *)
Definition manyGroupsDirectory : Directory :=
  {| groups_list := fun _ _ =>
       inr {| data_groups := Some (replicate 601 g2);
              request_responseURL := urlAll |};
     members_list := fun _ _ => inr membersNone |}.

Definition manyGroupsProvider : Provider :=
  sampleProvider None None manyGroupsDirectory.

(** ** The provider's life before a run *)

(** Lines 45-49: the state of the provider when its constructor returns.
    The constructor starts [initializeGoogleApiClient] without waiting for
    it, and that function assigns the client only after its [await]: the
    client is not set yet, and neither is the connection. *)
Definition construct (cfg : Config) : Provider :=
  {| config := cfg; connection := None; directoryApiClient := None |}.

(** Lines 51-62: the state once [initializeGoogleApiClient] has settled.
    [auth] is how the awaited credential lookup ended, with the directory
    client built from the credentials when it resolved; a rejection leaves
    the provider as it was. *)
Definition initializeGoogleApiClient (this : Provider)
    (auth : string + Directory) : Provider :=
  match auth with
  | inr client =>
      {| config := config this;
         connection := connection this;
         directoryApiClient := Some client |}
  | inl _ => this
  end.

(** The task the backend schedules for the provider
    (packages/backend/src/plugins/catalog.ts, lines 54-61); its [fn] is
    one [run]. *)
Record ScheduledTask : Type := {
  task_id : string;
  frequency_minutes : Z;
  timeout_minutes : Z
}.

Definition ggroups_sync : ScheduledTask :=
  {| task_id := "ggroups_sync"; frequency_minutes := 30; timeout_minutes := 10 |}.

Definition timeout_ms (t : ScheduledTask) : Z := timeout_minutes t * 60 * 1000.

(** ** More of what a history shows *)

Definition sleepOf (e : Event) : option Z :=
  match e with
  | Sleep ms => Some ms
  | _ => None
  end.

Definition logOf (e : Event) : option Error :=
  match e with
  | LogError err => Some err
  | _ => None
  end.

Definition memberAnswer (e : Event) : option MembersResponse :=
  match e with
  | MembersList _ (inr r) => Some r
  | _ => None
  end.

(** The delays of a history, the errors it logged, and the member records
    its member calls returned, each in order. *)
Definition sleeps (h : History) : list Z := omap sleepOf h.
Definition logged (h : History) : list Error := omap logOf h.
Definition memberAnswers (h : History) : list MembersResponse :=
  omap memberAnswer h.
Definition fetchedMembers (h : History) : list Member.t :=
  concat (membersOf <$> memberAnswers h).

Definition asUser (e : Entity.t) : option UserEntity.t :=
  match e with
  | Entity.OfUser u => Some u
  | Entity.OfGroup _ => None
  end.

(** The user entities among a sequence of entities, in order. *)
Definition userEntities (ents : list Entity.t) : list UserEntity.t :=
  omap asUser ents.

Fixpoint hasAt (s : string) : bool :=
  match s with
  | EmptyString => false
  | String c rest => if Ascii.eqb c "@" then true else hasAt rest
  end.

(** The message of a rejected directory call. *)
Definition failedCall (e : Event) : option string :=
  match e with
  | GroupsList _ (inl m) | MembersList _ (inl m) => Some m
  | _ => None
  end.

(** The delays of a history added up, in milliseconds. *)
Definition totalSleep (h : History) : Z := foldr Z.add 0%Z (sleeps h).

(** ** The anatomy of a run *)

(** The events of listing calls that were all answered. *)
Fixpoint listingEvents (ps : list GroupsListParams) (rs : list GroupsResponse)
  : History :=
  match ps, rs with
  | p :: ps', r :: rs' => GroupsList p (inr r) :: listingEvents ps' rs'
  | _, _ => []
  end.

(** The checks of a run have passed, with these values. *)
Definition Passed (this : Provider) (conn : Connection) (client : Directory)
    (cust : string) (gc qc : option (list string)) : Prop :=
  connection this = Some conn /\
  directoryApiClient this = Some client /\
  getString (config this) "google.providers.ggroups.customerId" = inr cust /\
  getOptionalStringArray (config this) "google.providers.ggroups.groups"
    = inr gc /\
  getOptionalStringArray (config this) "google.providers.ggroups.query"
    = inr qc /\
  validConfig gc qc.

Definition fromChecks (e : Error) : Prop :=
  match e with
  | ProviderError _ | ConfigError _ => True
  | _ => False
  end.

Definition urlOfLast (grs : list GroupsResponse) : string :=
  from_option request_responseURL "" (last grs).

Definition allHaveEmail (r : MembersResponse) : Prop :=
  forallb hasEmail (membersOf r) = true.

Section Anatomy.

Variable kebabCase : option string -> string.

(** The ways a run can go: what it returns or throws, with the events it
    adds.  It stops in its checks; or a listing call is rejected; or the
    member call of a kept group is rejected; or a member of a kept group
    has no email; or it gets to the sink with nothing, or with something. *)
Inductive RunShape (this : Provider) : Error + unit -> History -> Prop :=
  | ShapeChecks e new :
      fromChecks e ->
      new = [] \/ new = [LogError e] ->
      RunShape this (inl e) new
  | ShapeListing conn client cust gc qc ps1 p ps2 grs m :
      Passed this conn client cust gc qc ->
      listingParams cust qc = ps1 ++ p :: ps2 ->
      length grs = length ps1 ->
      RunShape this (inl (DirectoryApiError m))
        (listingEvents ps1 grs ++ [GroupsList p (inl m)])
  | ShapeMember conn client cust gc qc grs gs1 g gs2 mrs m :
      Passed this conn client cust gc qc ->
      length grs = length (listingParams cust qc) ->
      keep gc (concat (groupsOf <$> grs)) = gs1 ++ g :: gs2 ->
      length mrs = length gs1 ->
      Forall allHaveEmail mrs ->
      RunShape this (inl (DirectoryApiError m))
        (listingEvents (listingParams cust qc) grs ++ loopEvents gs1 mrs
           ++ [MembersList (memberKey g) (inl m)])
  | ShapeNoEmail conn client cust gc qc grs gs1 g gs2 mrs r :
      Passed this conn client cust gc qc ->
      length grs = length (listingParams cust qc) ->
      keep gc (concat (groupsOf <$> grs)) = gs1 ++ g :: gs2 ->
      length mrs = length gs1 ->
      Forall allHaveEmail mrs ->
      forallb hasEmail (membersOf r) = false ->
      RunShape this
        (inl (TypeError "Cannot read properties of undefined (reading 'split')"))
        (listingEvents (listingParams cust qc) grs ++ loopEvents gs1 mrs
           ++ [MembersList (memberKey g) (inr r)])
  | ShapeNothing conn client cust gc qc grs mrs :
      Passed this conn client cust gc qc ->
      length grs = length (listingParams cust qc) ->
      length mrs = length (keep gc (concat (groupsOf <$> grs))) ->
      Forall allHaveEmail mrs ->
      built kebabCase (urlOfLast grs) (keep gc (concat (groupsOf <$> grs))) mrs
        = [] ->
      RunShape this (inr tt)
        (listingEvents (listingParams cust qc) grs
           ++ loopEvents (keep gc (concat (groupsOf <$> grs))) mrs)
  | ShapeSink conn client cust gc qc grs mrs res :
      Passed this conn client cust gc qc ->
      length grs = length (listingParams cust qc) ->
      length mrs = length (keep gc (concat (groupsOf <$> grs))) ->
      Forall allHaveEmail mrs ->
      built kebabCase (urlOfLast grs) (keep gc (concat (groupsOf <$> grs))) mrs
        <> [] ->
      RunShape this
        (match res with Some msg => inl (SinkError msg) | None => inr tt end)
        (listingEvents (listingParams cust qc) grs
           ++ loopEvents (keep gc (concat (groupsOf <$> grs))) mrs
           ++ [ApplyMutation
                 (MutationFull
                    (deferred
                       <$> built kebabCase (urlOfLast grs)
                             (keep gc (concat (groupsOf <$> grs))) mrs))
                 res]).

End Anatomy.

(** * Properties *)

(** ** The monad laws used below *)

Lemma bind_inr {A B} (m : Run A) (k : A -> Run B) h a h' :
  m h = (inr a, h') -> bind m k h = k a h'.
Proof. unfold bind. intros ->. reflexivity. Qed.

Lemma bind_inl {A B} (m : Run A) (k : A -> Run B) h e h' :
  m h = (inl e, h') -> bind m k h = (inl e, h').
Proof. unfold bind. intros ->. reflexivity. Qed.

Lemma bind_inv {A B} (m : Run A) (k : A -> Run B) h r h2 :
  bind m k h = (r, h2) ->
  (exists e, m h = (inl e, h2) /\ r = inl e) \/
  (exists a h1, m h = (inr a, h1) /\ k a h1 = (r, h2)).
Proof.
  unfold bind. destruct (m h) as [[e | a] h1]; intros H.
  - left. exists e. inversion H. auto.
  - right. exists a, h1. auto.
Qed.

Lemma emits_ret {A} P (a : A) : emits P (ret a).
Proof. intros h. exists []. simpl. rewrite app_nil_r. auto. Qed.

Lemma emits_throw {A} P e : emits P (@throw A e).
Proof. intros h. exists []. simpl. rewrite app_nil_r. auto. Qed.

Lemma emits_emit (P : Event -> Prop) e : P e -> emits P (emit e).
Proof. intros H h. exists [e]. simpl. auto. Qed.

Lemma emits_bind {A B} P (m : Run A) (k : A -> Run B) :
  emits P m -> (forall a, emits P (k a)) -> emits P (bind m k).
Proof.
  intros Hm Hk h. destruct (Hm h) as (n1 & E1 & F1). unfold bind.
  destruct (m h) as [[e | a] h1]; simpl in E1; subst h1.
  - exists n1. auto.
  - destruct (Hk a (h ++ n1)) as (n2 & E2 & F2).
    exists (n1 ++ n2). rewrite E2, app_assoc. split; [reflexivity |].
    apply Forall_app. auto.
Qed.

Lemma emits_mono {A} (P Q : Event -> Prop) (m : Run A) :
  (forall e, P e -> Q e) -> emits P m -> emits Q m.
Proof.
  intros HPQ Hm h. destruct (Hm h) as (new & E & F).
  exists new. split; [assumption |]. eapply Forall_impl; eauto.
Qed.

(** ** The phases of a run *)

Section Phases.

Variable kebabCase : option string -> string.

Ltac emits_step :=
  first
    [ apply emits_ret
    | apply emits_throw
    | apply emits_emit; simpl; auto
    | apply emits_bind; [| intros ? ] ].

Lemma emits_call_groups_list (P : Event -> Prop) client p :
  (forall r, P (GroupsList p r)) -> emits P (call_groups_list client p).
Proof.
  intros H h. exists [GroupsList p (groups_list client h p)]. simpl. auto.
Qed.

Lemma emits_call_members_list (P : Event -> Prop) client p :
  (forall r, P (MembersList p r)) -> emits P (call_members_list client p).
Proof.
  intros H h. exists [MembersList p (members_list client h p)]. simpl. auto.
Qed.

Lemma emits_checkLifecycle this : emits isLog (checkLifecycle this).
Proof.
  unfold checkLifecycle.
  destruct (connection this), (directoryApiClient this);
    repeat emits_step.
Qed.

Lemma emits_liftConfig {A} P (r : string + A) : emits P (liftConfig r).
Proof. destruct r; simpl; emits_step. Qed.

Lemma emits_readConfig cfg : emits isLog (readConfig cfg).
Proof.
  unfold readConfig.
  apply emits_bind; [destruct (getString _ _); repeat emits_step |].
  intros cust. apply emits_bind; [apply emits_liftConfig |].
  intros gc. apply emits_bind; [apply emits_liftConfig |].
  intros qc. apply emits_bind; [destruct gc, qc; repeat emits_step |].
  intros _. apply emits_bind; [destruct qc as [[|]|]; repeat emits_step |].
  intros _. emits_step.
Qed.

Lemma emits_forEachQuery client cust qs gr gs :
  emits isGroupsList (forEachQuery client cust qs gr gs).
Proof.
  revert gr gs. induction qs as [| q qs IH]; intros gr gs; simpl.
  - emits_step.
  - apply emits_bind; [apply emits_call_groups_list; simpl; auto |].
    intros resp. apply IH.
Qed.

Lemma emits_fetchGroups client cust qc :
  emits isGroupsList (fetchGroups client cust qc).
Proof.
  unfold fetchGroups. destruct qc as [qs |].
  - apply emits_bind; [apply emits_forEachQuery |].
    intros [gr gs]. emits_step.
  - apply emits_bind; [apply emits_call_groups_list; simpl; auto |].
    intros resp. emits_step.
Qed.

(** The member loop performs no effect. *)
Lemma forEachMember_history url ms ge ents h :
  snd (forEachMember url ms ge ents h) = h.
Proof.
  revert ge ents. induction ms as [| m ms IH]; intros ge ents; simpl.
  - reflexivity.
  - unfold bind, memberName. destruct (Member.email m); simpl; [apply IH | reflexivity].
Qed.

Lemma emits_forEachMember P url ms ge ents :
  emits P (forEachMember url ms ge ents).
Proof.
  intros h. exists []. rewrite forEachMember_history, app_nil_r. auto.
Qed.

Lemma emits_forEachGroup client gr gs ents :
  emits isLoopEvent (forEachGroup kebabCase client gr gs ents).
Proof.
  revert ents. induction gs as [| g gs IH]; intros ents; simpl.
  - emits_step.
  - apply emits_bind; [destruct gr; simpl; emits_step |].
    intros url. apply emits_bind; [apply emits_call_members_list; simpl; auto |].
    intros mr. apply emits_bind; [apply emits_forEachMember |].
    intros [ge' ents']. apply emits_bind; [apply emits_emit; simpl; auto |].
    intros _. apply IH.
Qed.

(** Before the sink is looked at, a run logs, lists groups, lists members
    and sleeps, and does nothing else. *)
Lemma emits_collect this : emits notSink (collect kebabCase this).
Proof.
  unfold collect.
  apply emits_bind.
  { eapply emits_mono; [| apply emits_checkLifecycle]. intros []; simpl; intros; first [contradiction | reflexivity]. }
  intros [conn client]. apply emits_bind.
  { eapply emits_mono; [| apply emits_readConfig]. intros []; simpl; intros; first [contradiction | reflexivity]. }
  intros [[cust gc] qc]. apply emits_bind.
  { eapply emits_mono; [| apply emits_fetchGroups]. intros []; simpl; intros; first [contradiction | reflexivity]. }
  intros [gr gs]. apply emits_bind.
  { eapply emits_mono; [| apply emits_forEachGroup]. intros []; simpl; intros; first [contradiction | reflexivity]. }
  intros ents. emits_step.
Qed.

Lemma applyMutations_notSink new : Forall notSink new -> applyMutations new = [].
Proof.
  unfold applyMutations. induction 1 as [| e new He _ IH]; simpl; [reflexivity |].
  unfold notSink in He. rewrite He. exact IH.
Qed.

End Phases.

(** ** Runs that return *)

Section Returns.

Variable kebabCase : option string -> string.

Lemma newUserEntity_push url ge n m name :
  newUserEntity url (GroupEntity.push_member ge n) m name
  = newUserEntity url ge m name.
Proof. reflexivity. Qed.

Lemma forEachMember_spec url ms ge ents h :
  forEachMember url ms ge ents h =
  (if forallb hasEmail ms
   then inr (fold_left GroupEntity.push_member (nameOf <$> ms) ge,
             ents ++ (Entity.OfUser ∘ (fun m => newUserEntity url ge m (nameOf m)) <$> ms))
   else inl (TypeError "Cannot read properties of undefined (reading 'split')"),
   h).
Proof.
  revert ge ents. induction ms as [| m ms IH]; intros ge ents; simpl.
  - rewrite app_nil_r. reflexivity.
  - unfold bind, memberName. destruct (Member.email m) as [e |] eqn:E.
    + assert (Hn : nameOf m = split_head "@" e) by (unfold nameOf; rewrite E; reflexivity).
      assert (Hh : hasEmail m = true) by (unfold hasEmail; rewrite E; reflexivity).
      unfold ret at 1. rewrite IH, Hh, <- Hn. simpl.
      destruct (forallb hasEmail ms); [| reflexivity].
      rewrite <- app_assoc. reflexivity.
    + assert (Hh : hasEmail m = false) by (unfold hasEmail; rewrite E; reflexivity).
      rewrite Hh. reflexivity.
Qed.

Lemma keep_filterGroups gc fetched :
  default [] (filterGroups gc fetched) = keep gc (default [] fetched).
Proof. destruct gc, fetched; reflexivity. Qed.

Lemma checkLifecycle_inr this h conn client h' :
  checkLifecycle this h = (inr (conn, client), h') ->
  connection this = Some conn /\ directoryApiClient this = Some client /\ h' = h.
Proof.
  unfold checkLifecycle, bind, ret, throw, logger_error, emit.
  destruct (connection this), (directoryApiClient this); simpl;
    intros H; inversion H; auto.
Qed.

Lemma checkLifecycle_ok this h conn client :
  connection this = Some conn -> directoryApiClient this = Some client ->
  checkLifecycle this h = (inr (conn, client), h).
Proof. unfold checkLifecycle. intros -> ->. reflexivity. Qed.

Lemma readConfig_inr cfg h cust gc qc h' :
  readConfig cfg h = (inr (cust, gc, qc), h') ->
  getString cfg "google.providers.ggroups.customerId" = inr cust /\
  getOptionalStringArray cfg "google.providers.ggroups.groups" = inr gc /\
  getOptionalStringArray cfg "google.providers.ggroups.query" = inr qc /\
  validConfig gc qc /\ h' = h.
Proof.
  unfold readConfig, validConfig, bind, ret, throw, logger_error, emit, liftConfig.
  destruct (getString _ _) as [m | c]; simpl; [discriminate |].
  destruct (getOptionalStringArray cfg "google.providers.ggroups.groups")
    as [m | g]; simpl; [discriminate |].
  destruct (getOptionalStringArray cfg "google.providers.ggroups.query")
    as [m | q]; simpl; [discriminate |].
  destruct g as [a |], q as [[| q0 qs] |]; simpl; intros H; inversion H; subst;
    repeat split; auto; congruence.
Qed.

Lemma readConfig_ok cfg h cust gc qc :
  getString cfg "google.providers.ggroups.customerId" = inr cust ->
  getOptionalStringArray cfg "google.providers.ggroups.groups" = inr gc ->
  getOptionalStringArray cfg "google.providers.ggroups.query" = inr qc ->
  validConfig gc qc ->
  readConfig cfg h = (inr (cust, gc, qc), h).
Proof.
  unfold readConfig, validConfig, bind, liftConfig. intros -> -> -> [Hx Hq]. simpl.
  destruct gc as [a |], qc as [[| q0 qs] |]; simpl; try reflexivity;
    try congruence; destruct Hx; congruence.
Qed.

Lemma forEachQuery_inr client cust qs gr gs h gr' gs' h' :
  forEachQuery client cust qs gr gs h = (inr (gr', gs'), h') ->
  exists rs,
    length rs = length qs /\
    h' = h ++ queryEvents cust qs rs /\
    gs' = gs ++ concat (groupsOf <$> rs) /\
    gr' = from_option Some gr (last rs).
Proof.
  revert gr gs h. induction qs as [| q qs IH]; intros gr gs h; simpl.
  - unfold ret. intros H. inversion H; subst. exists []. simpl.
    rewrite !app_nil_r. auto.
  - intros H. apply bind_inv in H as [(e & _ & He) | (resp & h1 & Hc & Hk)];
      [discriminate |].
    unfold call_groups_list in Hc.
    destruct (groups_list client h _) as [m | r0] eqn:Hg; inversion Hc; subst.
    apply IH in Hk as (rs & Hlen & Hh & Hgs & Hgr).
    exists (resp :: rs). simpl. rewrite Hlen, Hh, Hgs, Hgr, <- !app_assoc. simpl.
    repeat split; auto.
    rewrite last_cons. destruct (last rs); reflexivity.
Qed.

Lemma forEachGroup_inr client resp gs ents h ents' h' :
  forEachGroup kebabCase client (Some resp) gs ents h = (inr ents', h') ->
  exists rs,
    length rs = length gs /\
    h' = h ++ loopEvents gs rs /\
    ents' = ents ++ built kebabCase (request_responseURL resp) gs rs /\
    Forall (fun r => forallb hasEmail (membersOf r) = true) rs.
Proof.
  revert ents h. induction gs as [| g gs IH]; intros ents h; simpl.
  - unfold ret. intros H. inversion H; subst. exists []. simpl.
    rewrite !app_nil_r. auto.
  - intros H. rewrite (bind_inr _ _ h (request_responseURL resp) h) in H
      by reflexivity.
    apply bind_inv in H as [(e & _ & He) | (mr & h1 & Hc & Hk)]; [discriminate |].
    unfold call_members_list in Hc.
    destruct (members_list client h _) as [m | r0] eqn:Hm; inversion Hc; subst.
    unfold bind in Hk. rewrite forEachMember_spec in Hk. fold (membersOf mr) in Hk.
    destruct (forallb hasEmail (membersOf mr)) eqn:Hall; [| discriminate].
    simpl in Hk. apply IH in Hk as (rs & Hlen & Hh & Hents & Hrs).
    exists (mr :: rs). simpl. rewrite Hlen, Hh, Hents, <- !app_assoc. simpl.
    repeat split; auto.
    unfold entitiesOf, groupOf, userOf. rewrite <- !app_assoc. reflexivity.
Qed.

Lemma listingResponses_queryEvents cust qs rs :
  length rs = length qs -> listingResponses (queryEvents cust qs rs) = rs.
Proof.
  revert rs. induction qs as [| q qs IH]; intros [| r rs] Hlen;
    simpl in *; try discriminate; try reflexivity.
  unfold listingResponses in *. simpl. f_equal. apply IH. lia.
Qed.

Lemma groupsListCalls_queryEvents cust qs rs :
  length rs = length qs ->
  groupsListCalls (queryEvents cust qs rs)
  = (fun q => {| customer := cust; query := Some q |}) <$> qs.
Proof.
  revert rs. induction qs as [| q qs IH]; intros [| r rs] Hlen;
    simpl in *; try discriminate; try reflexivity.
  unfold groupsListCalls in *. simpl. f_equal. apply IH. lia.
Qed.

Lemma listingResponses_loopEvents gs rs : listingResponses (loopEvents gs rs) = [].
Proof.
  revert rs. induction gs as [| g gs IH]; intros [| r rs]; simpl; auto.
Qed.

Lemma groupsListCalls_loopEvents gs rs : groupsListCalls (loopEvents gs rs) = [].
Proof.
  revert rs. induction gs as [| g gs IH]; intros [| r rs]; simpl; auto.
Qed.

Lemma membersListCalls_loopEvents gs rs :
  length rs = length gs ->
  membersListCalls (loopEvents gs rs)
  = (fun g => {| groupKey := Group.id g |}) <$> gs.
Proof.
  revert rs. induction gs as [| g gs IH]; intros [| r rs] Hlen;
    simpl in *; try discriminate; try reflexivity.
  unfold membersListCalls in *. simpl. f_equal. apply IH. lia.
Qed.

Lemma membersListCalls_fetchedBy cust qc new :
  fetchedBy cust qc new -> membersListCalls new = [].
Proof.
  destruct qc as [qs |]; simpl.
  - intros (rs & _ & ->). revert rs.
    induction qs as [| q qs IH]; intros [| r rs]; simpl; auto.
  - intros (resp & ->). reflexivity.
Qed.

Lemma fetchGroups_inr client cust qc h gr fetched h' :
  qc <> Some [] ->
  fetchGroups client cust qc h = (inr (gr, fetched), h') ->
  exists lnew resp,
    h' = h ++ lnew /\ fetchedBy cust qc lnew /\
    gr = Some resp /\ last (listingResponses lnew) = Some resp /\
    default [] fetched = listedGroups lnew.
Proof.
  intros Hq. unfold fetchGroups. destruct qc as [qs |].
  - intros H. apply bind_inv in H as [(e & _ & He) | ([gr0 gs0] & h1 & Hc & Hk)];
      [discriminate |].
    unfold ret in Hk. inversion Hk; subst.
    apply forEachQuery_inr in Hc as (rs & Hlen & Hh & Hgs & Hgr).
    destruct (last rs) as [resp |] eqn:Hlast.
    + exists (queryEvents cust qs rs), resp. simpl in *. subst.
      unfold listedGroups. rewrite listingResponses_queryEvents by assumption.
      repeat split; auto. exists rs. auto.
    + apply last_None in Hlast. subst rs. destruct qs; [congruence | discriminate].
  - intros H. apply bind_inv in H as [(e & _ & He) | (resp & h1 & Hc & Hk)];
      [discriminate |].
    unfold ret in Hk. inversion Hk; subst.
    unfold call_groups_list in Hc.
    destruct (groups_list client h _) as [m | r0] eqn:Hg; inversion Hc; subst.
    exists [GroupsList {| customer := cust; query := None |} (inr resp)], resp.
    split; [reflexivity |]. split; [exists resp; reflexivity |].
    split; [reflexivity |]. split; [reflexivity |].
    unfold listedGroups, listingResponses. simpl. rewrite app_nil_r. reflexivity.
Qed.

(** The shape of every run that gets as far as the sink. *)
Lemma collect_inr this h conn ents h' :
  collect kebabCase this h = (inr (conn, ents), h') ->
  exists client cust gc qc lnew rs,
    connection this = Some conn /\
    directoryApiClient this = Some client /\
    getString (config this) "google.providers.ggroups.customerId" = inr cust /\
    getOptionalStringArray (config this) "google.providers.ggroups.groups"
      = inr gc /\
    getOptionalStringArray (config this) "google.providers.ggroups.query"
      = inr qc /\
    validConfig gc qc /\
    fetchedBy cust qc lnew /\
    length rs = length (keep gc (listedGroups lnew)) /\
    h' = h ++ lnew ++ loopEvents (keep gc (listedGroups lnew)) rs /\
    ents = built kebabCase (lastURL lnew) (keep gc (listedGroups lnew)) rs /\
    Forall (fun r => forallb hasEmail (membersOf r) = true) rs.
Proof.
  unfold collect. intros H.
  apply bind_inv in H as [(e & _ & He) | ([conn0 client] & h1 & Hl & H)];
    [discriminate |].
  apply checkLifecycle_inr in Hl as (Hconn & Hclient & ->).
  apply bind_inv in H as [(e & _ & He) | ([[cust gc] qc] & h1 & Hr & H)];
    [discriminate |].
  apply readConfig_inr in Hr as (Hcust & Hgc & Hqc & Hvalid & ->).
  apply bind_inv in H as [(e & _ & He) | ([gr fetched] & h1 & Hf & H)];
    [discriminate |].
  apply fetchGroups_inr in Hf as (lnew & resp & -> & Hshape & -> & Hlast & Hgs);
    [| apply Hvalid].
  apply bind_inv in H as [(e & _ & He) | (ents0 & h2 & Hg & H)];
    [discriminate |].
  unfold ret in H. inversion H; subst.
  rewrite keep_filterGroups, Hgs in Hg.
  apply forEachGroup_inr in Hg as (rs & Hlen & Hh & Hents & Hrs).
  exists client, cust, gc, qc, lnew, rs.
  unfold lastURL. rewrite Hlast. simpl. subst.
  rewrite <- app_assoc. repeat split; auto; apply Hvalid.
Qed.

End Returns.

(** ** The sink *)

Section Sink.

Variable kebabCase : option string -> string.

Lemma run_collect_inr this h conn ents h1 :
  collect kebabCase this h = (inr (conn, ents), h1) ->
  run kebabCase this h = submit conn ents h1.
Proof. intros H. unfold run. rewrite (bind_inr _ _ _ _ _ H). reflexivity. Qed.

Lemma run_collect_inl this h e h1 :
  collect kebabCase this h = (inl e, h1) ->
  run kebabCase this h = (inl e, h1).
Proof. intros H. unfold run. apply bind_inl. exact H. Qed.

Lemma collect_quiet this h r h1 :
  collect kebabCase this h = (r, h1) ->
  exists new, h1 = h ++ new /\ applyMutations new = [].
Proof.
  intros H. destruct (emits_collect kebabCase this h) as (new & E & F).
  rewrite H in E. simpl in E. exists new. split; [exact E |].
  apply applyMutations_notSink. exact F.
Qed.

Lemma applyMutations_app a b :
  applyMutations (a ++ b) = applyMutations a ++ applyMutations b.
Proof. apply omap_app. Qed.

Lemma deferred_entity (ents : list Entity.t) :
  entity <$> (deferred <$> ents) = ents.
Proof. induction ents as [| e ents IH]; simpl; [| f_equal; exact IH]; reflexivity. Qed.

Lemma deferred_locationKey (ents : list Entity.t) :
  Forall (fun d =>
            locationKey d
            = Metadata.annotations (Entity.metadata (entity d))
                !! ANNOTATION_LOCATION)
         (deferred <$> ents).
Proof. induction ents as [| e ents IH]; simpl; constructor; auto. Qed.

(** C1. When the entities of a run are collected, the run hands the sink
    exactly one mutation if there is at least one entity: a full mutation
    whose entries are the collected entities, each once and in order, each
    with the value of its own location annotation as location key.  When
    no entity was collected the run returns without any call to the sink. *)
Theorem run_applies_one_full_mutation this h conn ents h1 :
  collect kebabCase this h = (inr (conn, ents), h1) ->
  exists new,
    snd (run kebabCase this h) = h ++ new /\
    (ents <> [] ->
     exists des,
       applyMutations new = [MutationFull des] /\
       entity <$> des = ents /\
       Forall (fun d =>
                 locationKey d
                 = Metadata.annotations (Entity.metadata (entity d))
                     !! ANNOTATION_LOCATION) des) /\
    (ents = [] ->
     applyMutations new = [] /\ fst (run kebabCase this h) = inr tt).
Proof.
  intros H. rewrite (run_collect_inr _ _ _ _ _ H).
  destruct (collect_quiet _ _ _ _ H) as (new1 & -> & Hq).
  destruct ents as [| e ents]; simpl.
  - exists new1. repeat split; auto. congruence.
  - exists (new1 ++ [ApplyMutation (MutationFull (deferred <$> e :: ents))
                       (applyMutation conn (h ++ new1)
                          (MutationFull (deferred <$> e :: ents)))]).
    rewrite app_assoc. split; [reflexivity |]. split; [| discriminate].
    intros _. exists (deferred <$> e :: ents).
    rewrite applyMutations_app, Hq. split; [reflexivity |].
    split; [apply deferred_entity | apply deferred_locationKey].
Qed.

(** C8. A run that throws anything but a rejection of the sink itself (a
    lifecycle error, a configuration error, a rejected directory call, a
    failed property read) has not called the sink: whatever was built
    before the failure reaches no mutation. *)
Theorem failed_run_applies_no_mutation this h e h1 :
  run kebabCase this h = (inl e, h1) ->
  (forall msg, e <> SinkError msg) ->
  exists new, h1 = h ++ new /\ applyMutations new = [].
Proof.
  intros H Hne. unfold run in H.
  apply bind_inv in H as [(e0 & Hc & He) | ([conn ents] & h2 & Hc & Hs)].
  - apply collect_quiet in Hc. exact Hc.
  - destruct ents as [| x ents]; simpl in Hs; [discriminate |].
    unfold call_applyMutation in Hs.
    destruct (applyMutation conn h2 _) as [msg |]; inversion Hs; subst.
    exfalso. apply (Hne msg). reflexivity.
Qed.

End Sink.

(** ** The configuration checks *)

Section Checks.

Variable kebabCase : option string -> string.

Lemma checkLifecycle_cases this h :
  (exists e, checkLifecycle this h = (inl e, h ++ [LogError e])) \/
  (exists conn client,
     connection this = Some conn /\ directoryApiClient this = Some client /\
     checkLifecycle this h = (inr (conn, client), h)).
Proof.
  unfold checkLifecycle.
  destruct (connection this) as [conn |], (directoryApiClient this) as [client |].
  - right. exists conn, client. auto.
  - left. eexists. reflexivity.
  - left. eexists. reflexivity.
  - left. eexists. reflexivity.
Qed.

Lemma log_only new :
  Forall isLog new ->
  groupsListCalls new = [] /\ membersListCalls new = [] /\ applyMutations new = [].
Proof.
  induction 1 as [| e new He _ (IH1 & IH2 & IH3)]; [repeat split |].
  destruct e; simpl in He; try contradiction.
  repeat split; assumption.
Qed.

Lemma readConfig_invalid cfg h :
  (exists a q,
     getOptionalStringArray cfg "google.providers.ggroups.groups" = inr (Some a) /\
     getOptionalStringArray cfg "google.providers.ggroups.query" = inr (Some q)) \/
  getOptionalStringArray cfg "google.providers.ggroups.query" = inr (Some []) ->
  exists e new, readConfig cfg h = (inl e, h ++ new) /\ Forall isLog new.
Proof.
  intros Hbad. unfold readConfig, bind, liftConfig.
  destruct (getString _ _) as [m | cust]; simpl.
  { eexists _, [_]. split; [reflexivity |]. repeat constructor. }
  destruct Hbad as [(a & q & Hg & Hq) | Hq].
  - rewrite Hg, Hq. simpl.
    eexists _, [_]. split; [reflexivity |]. repeat constructor.
  - rewrite Hq.
    destruct (getOptionalStringArray cfg "google.providers.ggroups.groups")
      as [m | [a |]]; simpl.
    + eexists _, []. rewrite app_nil_r. split; [reflexivity | constructor].
    + eexists _, [_]. split; [reflexivity |]. repeat constructor.
    + eexists _, [_]. split; [reflexivity |]. repeat constructor.
Qed.

(** C5. With both the allow-list and the query list set, or with a query
    list that is set and empty, a run throws, and the only thing it has
    done by then is log: no directory call was issued (and no sink call). *)
Theorem invalid_filters_throw_before_any_call this h :
  (exists a q,
     getOptionalStringArray (config this) "google.providers.ggroups.groups"
       = inr (Some a) /\
     getOptionalStringArray (config this) "google.providers.ggroups.query"
       = inr (Some q)) \/
  getOptionalStringArray (config this) "google.providers.ggroups.query"
    = inr (Some []) ->
  exists e new,
    run kebabCase this h = (inl e, h ++ new) /\
    Forall isLog new /\
    groupsListCalls new = [] /\ membersListCalls new = [] /\
    applyMutations new = [].
Proof.
  intros Hbad.
  assert (Hc : exists e new,
             collect kebabCase this h = (inl e, h ++ new) /\ Forall isLog new).
  { unfold collect.
    destruct (checkLifecycle_cases this h) as [(e & Hl) | (conn & client & _ & _ & Hl)].
    - exists e, [LogError e]. split; [| repeat constructor].
      apply bind_inl. exact Hl.
    - destruct (readConfig_invalid (config this) h Hbad) as (e & new & Hr & Hlog).
      exists e, new. split; [| exact Hlog].
      rewrite (bind_inr _ _ _ _ _ Hl). apply bind_inl. exact Hr. }
  destruct Hc as (e & new & Hc & Hlog).
  exists e, new. split; [apply run_collect_inl; exact Hc |].
  split; [exact Hlog | apply log_only; exact Hlog].
Qed.

End Checks.

(** ** A run after its checks *)

Section AfterChecks.

Variable kebabCase : option string -> string.

Lemma readConfig_cases cfg h :
  (exists e new, readConfig cfg h = (inl e, h ++ new) /\ Forall isLog new) \/
  (exists cust gc qc,
     getString cfg "google.providers.ggroups.customerId" = inr cust /\
     getOptionalStringArray cfg "google.providers.ggroups.groups" = inr gc /\
     getOptionalStringArray cfg "google.providers.ggroups.query" = inr qc /\
     validConfig gc qc /\
     readConfig cfg h = (inr (cust, gc, qc), h)).
Proof.
  destruct (emits_readConfig cfg h) as (new & E & F).
  destruct (readConfig cfg h) as [[e | [[cust gc] qc]] h1] eqn:Hr; simpl in E; subst h1.
  - left. exists e, new. auto.
  - right. exists cust, gc, qc.
    pose proof (readConfig_inr _ _ _ _ _ _ Hr) as (H1 & H2 & H3 & H4 & H5).
    repeat split; try assumption; try apply H4.
    rewrite H5. reflexivity.
Qed.

(** What is left of a run once its checks have passed. *)
Lemma run_after_checks this h conn client cust gc qc :
  connection this = Some conn ->
  directoryApiClient this = Some client ->
  getString (config this) "google.providers.ggroups.customerId" = inr cust ->
  getOptionalStringArray (config this) "google.providers.ggroups.groups"
    = inr gc ->
  getOptionalStringArray (config this) "google.providers.ggroups.query"
    = inr qc ->
  validConfig gc qc ->
  run kebabCase this h =
  bind (fetchGroups client cust qc)
    (fun '(gr, ggroups) =>
       bind (forEachGroup kebabCase client gr
               (default [] (filterGroups gc ggroups)) [])
         (submit conn)) h.
Proof.
  intros Hconn Hclient Hcust Hgc Hqc Hvalid.
  unfold run, collect, bind.
  rewrite (checkLifecycle_ok _ h _ _ Hconn Hclient).
  rewrite (readConfig_ok _ h _ _ _ Hcust Hgc Hqc Hvalid).
  destruct (fetchGroups client cust qc h) as [[e | [gr gg]] h1]; [reflexivity |].
  destruct (forEachGroup _ _ _ _ _ _) as [[e | ents] h2]; reflexivity.
Qed.

(** A run stops in its checks, having only logged, or gets past them. *)
Lemma run_cases this h :
  (exists e new, run kebabCase this h = (inl e, h ++ new) /\ Forall isLog new) \/
  (exists conn client cust gc qc,
     connection this = Some conn /\
     directoryApiClient this = Some client /\
     getString (config this) "google.providers.ggroups.customerId" = inr cust /\
     getOptionalStringArray (config this) "google.providers.ggroups.groups"
       = inr gc /\
     getOptionalStringArray (config this) "google.providers.ggroups.query"
       = inr qc /\
     validConfig gc qc).
Proof.
  destruct (checkLifecycle_cases this h) as [(e & Hl) | (conn & client & Hconn & Hclient & Hl)].
  - left. exists e, [LogError e]. split; [| repeat constructor].
    apply run_collect_inl. unfold collect. apply bind_inl. exact Hl.
  - destruct (readConfig_cases (config this) h)
      as [(e & new & Hr & Hlog) | (cust & gc & qc & H1 & H2 & H3 & H4 & _)].
    + left. exists e, new. split; [| exact Hlog].
      apply run_collect_inl. unfold collect.
      rewrite (bind_inr _ _ _ _ _ Hl). apply bind_inl. exact Hr.
    + right. exists conn, client, cust, gc, qc. auto 10.
Qed.

Lemma emits_loop_then_submit conn client gr gs :
  emits noListing
    (bind (forEachGroup kebabCase client gr gs []) (submit conn)).
Proof.
  apply emits_bind.
  - eapply emits_mono; [| apply emits_forEachGroup].
    intros []; simpl; intros; first [contradiction | reflexivity].
  - intros [| e ents]; simpl; [apply emits_ret |].
    intros h. eexists [_]. split; [reflexivity |]. repeat constructor.
Qed.

Lemma groupsListCalls_app a b :
  groupsListCalls (a ++ b) = groupsListCalls a ++ groupsListCalls b.
Proof. apply omap_app. Qed.

Lemma membersListCalls_app a b :
  membersListCalls (a ++ b) = membersListCalls a ++ membersListCalls b.
Proof. apply omap_app. Qed.

Lemma noListing_calls new : Forall noListing new -> groupsListCalls new = [].
Proof.
  induction 1 as [| e new He _ IH]; [reflexivity |].
  unfold groupsListCalls in *. simpl. unfold noListing in He. rewrite He. exact IH.
Qed.

Lemma listing_only new :
  Forall isGroupsList new -> membersListCalls new = [] /\ applyMutations new = [].
Proof.
  induction 1 as [| e new He _ (IH1 & IH2)]; [split; reflexivity |].
  destruct e; simpl in He; try contradiction. split; assumption.
Qed.

End AfterChecks.

(** ** Empty syncs *)

Section EmptySync.

Variable kebabCase : option string -> string.

Lemma keep_empty_allow gs : keep (Some []) gs = [].
Proof.
  simpl. induction gs as [| g gs IH]; simpl; [reflexivity |].
  destruct (Group.email g); simpl; exact IH.
Qed.

Lemma filterGroups_empty_allow fetched :
  default [] (filterGroups (Some []) fetched) = [].
Proof. rewrite keep_filterGroups. apply keep_empty_allow. Qed.

(** C10. With an allow-list that is set and empty the filter still runs
    and keeps no group, whatever was fetched; so the run calls neither the
    member listing nor the sink, and a run that collects its entities
    collects none. *)
Theorem empty_allow_list_is_a_noop this h :
  getOptionalStringArray (config this) "google.providers.ggroups.groups"
    = inr (Some []) ->
  (forall fetched, default [] (filterGroups (Some []) fetched) = []) /\
  (exists new,
     snd (run kebabCase this h) = h ++ new /\
     membersListCalls new = [] /\ applyMutations new = []) /\
  (forall conn ents h1,
     collect kebabCase this h = (inr (conn, ents), h1) -> ents = []).
Proof.
  intros Hg. split; [exact filterGroups_empty_allow |]. split.
  - destruct (run_cases kebabCase this h)
      as [(e & new & Hr & Hlog)
         | (conn & client & cust & gc & qc & Hconn & Hclient & Hcust & Hgc & Hqc & Hv)].
    + exists new. rewrite Hr. split; [reflexivity |].
      apply log_only in Hlog. tauto.
    + rewrite Hg in Hgc. inversion Hgc; subst gc.
      rewrite (run_after_checks _ _ _ _ _ _ _ _ Hconn Hclient Hcust Hg Hqc Hv).
      destruct (emits_fetchGroups client cust qc h) as (new & E & F).
      exists new. apply listing_only in F. split; [| exact F].
      unfold bind.
      destruct (fetchGroups client cust qc h) as [[e | [gr gg]] h1];
        simpl in E; subst h1; [reflexivity |].
      rewrite filterGroups_empty_allow. reflexivity.
  - intros conn ents h1 Hc.
    apply collect_inr in Hc
      as (client & cust & gc & qc & lnew & rs & _ & _ & _ & Hgc & _ & _ & _ & _ & _ & -> & _).
    rewrite Hg in Hgc. inversion Hgc; subst gc.
    rewrite keep_empty_allow. reflexivity.
Qed.

(** C9. Without a query list, when the listing call of a run was answered
    by a response that carries no groups field, the run returns normally
    and that call is all it did: no member call and no sink call. *)
Theorem missing_groups_field_is_an_empty_sync this h new p resp :
  getOptionalStringArray (config this) "google.providers.ggroups.query"
    = inr None ->
  snd (run kebabCase this h) = h ++ new ->
  GroupsList p (inr resp) ∈ new ->
  data_groups resp = None ->
  run kebabCase this h = (inr tt, h ++ [GroupsList p (inr resp)]) /\
  membersListCalls new = [] /\ applyMutations new = [].
Proof.
  intros Hq Hsnd Hin Hnone.
  assert (Hrun : run kebabCase this h = (inr tt, h ++ [GroupsList p (inr resp)])).
  { destruct (run_cases kebabCase this h)
      as [(e & n & Hr & Hlog)
         | (conn & client & cust & gc & qc & Hconn & Hclient & Hcust & Hgc & Hqc & Hv)].
    - rewrite Hr in Hsnd. simpl in Hsnd. apply app_inv_head in Hsnd. subst n.
      rewrite Forall_forall in Hlog. destruct (Hlog _ Hin).
    - rewrite Hq in Hqc. inversion Hqc; subst qc.
      rewrite (run_after_checks _ _ _ _ _ _ _ _ Hconn Hclient Hcust Hgc Hq Hv) in Hsnd |- *.
      unfold fetchGroups, call_groups_list in Hsnd |- *.
      unfold bind at 1 2 in Hsnd. unfold bind at 1 2.
      destruct (groups_list client h {| customer := cust; query := None |})
        as [m | r0]; simpl in Hsnd |- *.
      + apply app_inv_head in Hsnd. subst new.
        apply list_elem_of_singleton in Hin. discriminate.
      + destruct (emits_loop_then_submit kebabCase conn client (Some r0)
                    (default [] (filterGroups gc (data_groups r0)))
                    (h ++ [GroupsList {| customer := cust; query := None |} (inr r0)]))
          as (n2 & E & F).
        rewrite E, <- app_assoc in Hsnd. apply app_inv_head in Hsnd. subst new.
        apply elem_of_cons in Hin as [Heq | Hin].
        * inversion Heq; subst. rewrite Hnone.
          destruct gc; reflexivity.
        * rewrite Forall_forall in F. specialize (F _ Hin). discriminate. }
  split; [exact Hrun |].
  rewrite Hrun in Hsnd. simpl in Hsnd. apply app_inv_head in Hsnd. subst new.
  split; reflexivity.
Qed.

End EmptySync.

(** ** Listing by query expressions *)

Section Queries.

Variable kebabCase : option string -> string.

(** The listing loop either gets an answer to every call, or stops at the
    first rejected one. *)
Lemma forEachQuery_cases client cust qs gr gs h :
  (exists rs,
     length rs = length qs /\
     forEachQuery client cust qs gr gs h
     = (inr (from_option Some gr (last rs), gs ++ concat (groupsOf <$> rs)),
        h ++ queryEvents cust qs rs)) \/
  (exists e new,
     forEachQuery client cust qs gr gs h = (inl e, h ++ new) /\
     Exists isFailedListing new).
Proof.
  revert gr gs h. induction qs as [| q qs IH]; intros gr gs h; simpl.
  - left. exists []. simpl. rewrite !app_nil_r. auto.
  - unfold bind, call_groups_list.
    destruct (groups_list client h {| customer := cust; query := Some q |})
      as [m | r].
    + right. eexists _, [_]. split; [reflexivity |]. constructor. exact I.
    + destruct (IH (Some r) (gs ++ default [] (data_groups r))
                   (h ++ [GroupsList {| customer := cust; query := Some q |} (inr r)]))
        as [(rs & Hlen & ->) | (e & new & -> & Hex)].
      * left. exists (r :: rs). simpl. rewrite Hlen, <- !app_assoc. simpl.
        rewrite last_cons. split; [reflexivity |]. destruct (last rs); reflexivity.
      * right. eexists e, (_ :: new). rewrite <- app_assoc. simpl.
        split; [reflexivity |]. apply Exists_cons_tl. exact Hex.
Qed.

(** C4.  With a non-empty query list (and, as a query list requires, no
    allow-list), a run that passes its checks and in which no listing call
    is rejected issues one listing call per query expression, each with
    its expression as the filter, in the order of the list, and no other
    listing call; it then runs the loop over the groups of all the answers
    put end to end in call order (an answer without a groups field adds
    nothing, and nothing is removed), with the last answer as the response
    the annotations are read from. *)
Theorem one_listing_call_per_query this h conn client cust qs :
  connection this = Some conn ->
  directoryApiClient this = Some client ->
  getString (config this) "google.providers.ggroups.customerId" = inr cust ->
  getOptionalStringArray (config this) "google.providers.ggroups.groups"
    = inr None ->
  getOptionalStringArray (config this) "google.providers.ggroups.query"
    = inr (Some qs) ->
  qs <> [] ->
  (forall new, snd (run kebabCase this h) = h ++ new ->
               ~ Exists isFailedListing new) ->
  exists rs,
    length rs = length qs /\
    run kebabCase this h
    = bind (forEachGroup kebabCase client (last rs) (concat (groupsOf <$> rs)) [])
        (submit conn) (h ++ queryEvents cust qs rs) /\
    forall new,
      snd (run kebabCase this h) = h ++ new ->
      groupsListCalls new
      = (fun q => {| customer := cust; query := Some q |}) <$> qs.
Proof.
  intros Hconn Hclient Hcust Hgc Hqc Hne Hok.
  assert (Hv : validConfig None (Some qs)).
  { split; [left; reflexivity |]. congruence. }
  pose proof (run_after_checks kebabCase _ h _ _ _ _ _ Hconn Hclient Hcust Hgc Hqc Hv)
    as Hrun.
  unfold fetchGroups in Hrun. unfold bind at 1 2 in Hrun.
  destruct (forEachQuery_cases client cust qs None [] h)
    as [(rs & Hlen & Hq) | (e & new & Hq & Hex)].
  - rewrite Hq in Hrun. simpl in Hrun.
    assert (Hlast : from_option Some None (last rs) = last rs)
      by (destruct (last rs); reflexivity).
    rewrite Hlast in Hrun.
    exists rs. split; [exact Hlen |]. split; [exact Hrun |].
    intros new Hsnd. rewrite Hrun in Hsnd.
    destruct (emits_loop_then_submit kebabCase conn client (last rs)
                (concat (groupsOf <$> rs)) (h ++ queryEvents cust qs rs))
      as (n2 & E & F).
    rewrite E, <- app_assoc in Hsnd. apply app_inv_head in Hsnd. subst new.
    rewrite groupsListCalls_app, (noListing_calls _ F), app_nil_r.
    apply groupsListCalls_queryEvents. exact Hlen.
  - rewrite Hq in Hrun. simpl in Hrun.
    exfalso. apply (Hok new); [rewrite Hrun; reflexivity | exact Hex].
Qed.

End Queries.

(** ** What a collected run looks like from outside *)

Section Shape.

Variable kebabCase : option string -> string.

Lemma listingResponses_app a b :
  listingResponses (a ++ b) = listingResponses a ++ listingResponses b.
Proof. apply omap_app. Qed.

Lemma listedGroups_loop lnew gs rs :
  listedGroups (lnew ++ loopEvents gs rs) = listedGroups lnew.
Proof.
  unfold listedGroups.
  rewrite listingResponses_app, listingResponses_loopEvents, app_nil_r.
  reflexivity.
Qed.

Lemma lastURL_loop lnew gs rs : lastURL (lnew ++ loopEvents gs rs) = lastURL lnew.
Proof.
  unfold lastURL.
  rewrite listingResponses_app, listingResponses_loopEvents, app_nil_r.
  reflexivity.
Qed.

Lemma fetchedBy_calls cust qc lnew :
  fetchedBy cust qc lnew ->
  groupsListCalls lnew = listingParams cust qc /\ Forall isGroupsList lnew.
Proof.
  destruct qc as [qs |]; simpl.
  - intros (rs & Hlen & ->). split; [apply groupsListCalls_queryEvents; exact Hlen |].
    revert rs Hlen. induction qs as [| q qs IH]; intros [| r rs] Hlen;
      simpl in *; try discriminate; constructor; [exact I |].
    apply IH. lia.
  - intros (resp & ->). split; [reflexivity |]. repeat constructor.
Qed.

Lemma loopEvents_members gs rs p res :
  MembersList p res ∈ loopEvents gs rs ->
  exists g r, (g, r) ∈ zip gs rs /\ p = memberKey g /\ res = inr r.
Proof.
  revert rs. induction gs as [| g gs IH]; intros [| r rs]; simpl;
    try (intros H; apply elem_of_nil in H; contradiction).
  intros H. apply elem_of_cons in H as [Heq | H].
  - inversion Heq; subst. exists g, r. split; [left | split; reflexivity].
  - apply elem_of_cons in H as [Heq | H]; [discriminate |].
    apply IH in H as (g' & r' & Hz & Hp & Hr).
    exists g', r'. split; [right; exact Hz | split; assumption].
Qed.

Lemma built_includes url gs rs g r e :
  (g, r) ∈ zip gs rs ->
  e ∈ entitiesOf kebabCase url g (membersOf r) ->
  e ∈ built kebabCase url gs rs.
Proof.
  revert rs. induction gs as [| g0 gs IH]; intros [| r0 rs]; simpl;
    try (intros H; apply elem_of_nil in H; contradiction).
  intros H He. apply elem_of_app. apply elem_of_cons in H as [Heq | H].
  - inversion Heq; subst. left. exact He.
  - right. apply IH; assumption.
Qed.

Lemma built_from url gs rs e :
  e ∈ built kebabCase url gs rs ->
  exists g r, (g, r) ∈ zip gs rs /\ e ∈ entitiesOf kebabCase url g (membersOf r).
Proof.
  revert rs. induction gs as [| g0 gs IH]; intros [| r0 rs]; simpl;
    try (intros H; apply elem_of_nil in H; contradiction).
  intros H. apply elem_of_app in H as [H | H].
  - exists g0, r0. split; [left | exact H].
  - apply IH in H as (g & r & Hz & He). exists g, r. split; [right; exact Hz | exact He].
Qed.

(** The group entity after all its members were pushed. *)
Lemma push_members_metadata ns ge :
  GroupEntity.metadata (fold_left GroupEntity.push_member ns ge)
  = GroupEntity.metadata ge.
Proof. revert ge. induction ns as [| n ns IH]; intros ge; simpl; [| rewrite IH]; reflexivity. Qed.

Lemma push_members_members ns ge :
  GroupSpec.members (GroupEntity.spec (fold_left GroupEntity.push_member ns ge))
  = GroupSpec.members (GroupEntity.spec ge) ++ ns.
Proof.
  revert ge. induction ns as [| n ns IH]; intros ge; simpl.
  - rewrite app_nil_r. reflexivity.
  - rewrite IH. simpl. rewrite <- app_assoc. reflexivity.
Qed.

Lemma push_members_profile ns ge :
  GroupSpec.profile_displayName
    (GroupEntity.spec (fold_left GroupEntity.push_member ns ge))
  = GroupSpec.profile_displayName (GroupEntity.spec ge) /\
  GroupSpec.profile_email
    (GroupEntity.spec (fold_left GroupEntity.push_member ns ge))
  = GroupSpec.profile_email (GroupEntity.spec ge) /\
  GroupEntity.kind (fold_left GroupEntity.push_member ns ge) = GroupEntity.kind ge.
Proof.
  revert ge. induction ns as [| n ns IH]; intros ge; simpl; [auto |].
  destruct (IH (GroupEntity.push_member ge n)) as (H1 & H2 & H3).
  rewrite H1, H2, H3. auto.
Qed.

Lemma groupEntities_app a b :
  groupEntities (a ++ b) = groupEntities a ++ groupEntities b.
Proof. apply omap_app. Qed.

Lemma groupEntities_users url g (ms : list Member.t) :
  groupEntities (Entity.OfUser ∘ userOf kebabCase url g <$> ms) = [].
Proof. induction ms as [| m ms IH]; simpl; [reflexivity | exact IH]. Qed.

(** One group entity per group of the loop, in order. *)
Lemma groupEntities_built url gs rs :
  length rs = length gs ->
  groupEntities (built kebabCase url gs rs)
  = zip_with (fun g r => groupOf kebabCase url g (membersOf r)) gs rs.
Proof.
  revert rs. induction gs as [| g gs IH]; intros [| r rs] Hlen;
    simpl in *; try discriminate; try reflexivity.
  unfold entitiesOf. rewrite !groupEntities_app, groupEntities_users. simpl.
  f_equal. apply IH. lia.
Qed.

Lemma groupEntities_emails url gs rs :
  length rs = length gs ->
  (fun G => GroupSpec.profile_email (GroupEntity.spec G))
    <$> groupEntities (built kebabCase url gs rs)
  = Group.email <$> gs.
Proof.
  intros Hlen. rewrite groupEntities_built by exact Hlen.
  revert rs Hlen. induction gs as [| g gs IH]; intros [| r rs] Hlen;
    simpl in *; try discriminate; try reflexivity.
  f_equal; [| apply IH; lia].
  unfold groupOf. apply push_members_profile.
Qed.

Lemma groupEntities_uids url gs rs :
  length rs = length gs ->
  (fun G => Metadata.uid (GroupEntity.metadata G))
    <$> groupEntities (built kebabCase url gs rs)
  = Group.id <$> gs.
Proof.
  intros Hlen. rewrite groupEntities_built by exact Hlen.
  revert rs Hlen. induction gs as [| g gs IH]; intros [| r rs] Hlen;
    simpl in *; try discriminate; try reflexivity.
  f_equal; [| apply IH; lia].
  unfold groupOf. rewrite push_members_metadata. reflexivity.
Qed.

(** The shape of a collected run, in terms of what its history shows. *)
Lemma collect_shape this h conn ents h1 :
  collect kebabCase this h = (inr (conn, ents), h1) ->
  exists cust gc qc new rs,
    getString (config this) "google.providers.ggroups.customerId" = inr cust /\
    getOptionalStringArray (config this) "google.providers.ggroups.groups"
      = inr gc /\
    getOptionalStringArray (config this) "google.providers.ggroups.query"
      = inr qc /\
    validConfig gc qc /\
    h1 = h ++ new /\
    groupsListCalls new = listingParams cust qc /\
    length rs = length (keep gc (listedGroups new)) /\
    membersListCalls new = memberKey <$> keep gc (listedGroups new) /\
    (forall p res,
       MembersList p res ∈ new ->
       exists g r,
         (g, r) ∈ zip (keep gc (listedGroups new)) rs /\
         p = memberKey g /\ res = inr r) /\
    ents = built kebabCase (lastURL new) (keep gc (listedGroups new)) rs /\
    Forall (fun r => forallb hasEmail (membersOf r) = true) rs.
Proof.
  intros H. apply collect_inr in H
    as (client & cust & gc & qc & lnew & rs & _ & _ & Hcust & Hgc & Hqc & Hv
        & Hshape & Hlen & -> & -> & Hrs).
  exists cust, gc, qc, (lnew ++ loopEvents (keep gc (listedGroups lnew)) rs), rs.
  rewrite listedGroups_loop, lastURL_loop.
  destruct (fetchedBy_calls _ _ _ Hshape) as (Hcalls & Hall).
  do 5 (split; [auto |]).
  split.
  { rewrite groupsListCalls_app, groupsListCalls_loopEvents, app_nil_r. exact Hcalls. }
  split; [exact Hlen |]. split.
  { rewrite membersListCalls_app, (membersListCalls_fetchedBy _ _ _ Hshape).
    apply membersListCalls_loopEvents. exact Hlen. }
  split; [| split; [reflexivity | exact Hrs]].
  intros p res Hin. apply elem_of_app in Hin as [Hin | Hin].
  - rewrite Forall_forall in Hall. destruct (Hall _ Hin).
  - apply loopEvents_members. exact Hin.
Qed.

End Shape.

(** ** Groups, members and entities *)

Section Entities.

Variable kebabCase : option string -> string.

(** The local part of an address: what stands before its first [@]. *)
Lemma split_head_local (l d : string) :
  (forall c, c ∈ list_ascii_of_string l -> c <> "@"%char) ->
  split_head "@" (l +:+ "@" +:+ d) = l.
Proof.
  induction l as [| c l IH]; simpl; intros Hl; [reflexivity |].
  destruct (Ascii.eqb_spec c "@") as [-> | Hc].
  - exfalso. apply (Hl "@"%char); [left | reflexivity].
  - f_equal. apply IH. intros c' Hc'. apply Hl. right. exact Hc'.
Qed.

Lemma run_sink this h conn ents h1 :
  collect kebabCase this h = (inr (conn, ents), h1) ->
  exists tail,
    snd (run kebabCase this h) = h1 ++ tail /\
    applyMutations tail
    = match ents with
      | [] => []
      | _ :: _ => [MutationFull (deferred <$> ents)]
      end.
Proof.
  intros H. rewrite (run_collect_inr _ _ _ _ _ _ H).
  destruct ents as [| e ents]; simpl.
  - exists []. rewrite app_nil_r. auto.
  - eexists [_]. split; reflexivity.
Qed.

Lemma keep_subset gc gs g : g ∈ keep gc gs -> g ∈ gs.
Proof.
  destruct gc as [allow |]; simpl; [| auto].
  rewrite !list_elem_of_In, filter_In. tauto.
Qed.

(** What stands before the first [@] of a string, in the terms of the
    string alone: it holds no [@], and the string is it, or it followed by
    [@] and a rest. *)
Lemma split_head_spec (s : string) :
  (forall c, c ∈ list_ascii_of_string (split_head "@" s) -> c <> "@"%char) /\
  (s = split_head "@" s \/ exists d, s = split_head "@" s +:+ "@" +:+ d).
Proof.
  induction s as [| c s (IH1 & IH2)]; simpl.
  - split; [intros c Hc; apply elem_of_nil in Hc; contradiction | left; reflexivity].
  - destruct (Ascii.eqb_spec c "@") as [-> | Hc]; simpl.
    + split; [intros c Hc; apply elem_of_nil in Hc; contradiction |].
      right. exists s. reflexivity.
    + split.
      * intros c' Hc'. apply elem_of_cons in Hc' as [-> | Hc']; [exact Hc | auto].
      * destruct IH2 as [IH2 | (d & IH2)].
        -- left. f_equal. exact IH2.
        -- right. exists d. rewrite IH2 at 1. reflexivity.
Qed.

(** In a run that collects its entities, every member record with an
    email address in the answer to a member call has a user entity among
    the collected ones: its name is the local part of the address (it
    holds no [@], and the address is the name, or the name followed by [@]
    and a rest), its [memberOf] is exactly the name of the group entity
    built for the group the call was made for, that name being [kebabCase]
    of the group's display name, and the user's name is in the members of
    that group entity. *)
Theorem member_becomes_user_of_its_group this h conn ents new p r m addr :
  collect kebabCase this h = (inr (conn, ents), h ++ new) ->
  MembersList p (inr r) ∈ new ->
  m ∈ membersOf r ->
  Member.email m = Some addr ->
  exists u G g gc,
    Entity.OfUser u ∈ ents /\ Entity.OfGroup G ∈ ents /\
    UserEntity.kind u = "User" /\
    Metadata.uid (UserEntity.metadata u) = Member.id m /\
    Metadata.name (UserEntity.metadata u) = split_head "@" addr /\
    (forall c,
       c ∈ list_ascii_of_string (Metadata.name (UserEntity.metadata u)) ->
       c <> "@"%char) /\
    (addr = Metadata.name (UserEntity.metadata u) \/
     exists d, addr = Metadata.name (UserEntity.metadata u) +:+ "@" +:+ d) /\
    UserSpec.memberOf (UserEntity.spec u)
      = [Metadata.name (GroupEntity.metadata G)] /\
    Metadata.name (GroupEntity.metadata G) = kebabCase (Group.name g) /\
    GroupSpec.profile_displayName (GroupEntity.spec G) = Group.name g /\
    Metadata.uid (GroupEntity.metadata G) = groupKey p /\
    Metadata.name (UserEntity.metadata u)
      ∈ GroupSpec.members (GroupEntity.spec G) /\
    getOptionalStringArray (config this) "google.providers.ggroups.groups"
      = inr gc /\
    g ∈ keep gc (listedGroups new) /\ memberKey g = p.
Proof.
  intros Hc Hin Hm Hemail.
  apply collect_shape in Hc
    as (cust & gc & qc & new' & rs & _ & Hgc & _ & _ & Hh & _ & _ & _ & Hmem & -> & _).
  apply app_inv_head in Hh. subst new'.
  apply Hmem in Hin as (g & r' & Hz & -> & Hr). inversion Hr; subst r'.
  exists (userOf kebabCase (lastURL new) g m),
         (groupOf kebabCase (lastURL new) g (membersOf r)), g, gc.
  unfold groupOf. rewrite push_members_metadata, push_members_members.
  destruct (push_members_profile (nameOf <$> membersOf r)
              (newGroupEntity kebabCase (lastURL new) g)) as (Hdn & _ & _).
  rewrite Hdn.
  assert (Hname : nameOf m = split_head "@" addr)
    by (unfold nameOf; rewrite Hemail; reflexivity).
  split.
  { eapply built_includes; [exact Hz |]. apply elem_of_app. left.
    apply (list_elem_of_fmap_2 (Entity.OfUser ∘ userOf kebabCase (lastURL new) g)).
    exact Hm. }
  split.
  { eapply built_includes; [exact Hz |]. apply elem_of_app. right. left. }
  pose proof (split_head_spec addr) as (Hno & Hpre).
  simpl. rewrite <- Hname in *.
  repeat (split; [reflexivity |]).
  split; [exact Hno |]. split; [exact Hpre |].
  repeat (split; [reflexivity |]).
  split; [apply list_elem_of_fmap_2; exact Hm |].
  split; [exact Hgc |]. split; [| reflexivity].
  apply elem_of_zip_l in Hz. exact Hz.
Qed.

(** C6. With an allow-list, a run that collects its entities has kept,
    of the listed groups and in their order, exactly those whose address
    is in the list: the member calls are those of the kept groups, the
    collected entities are those built for the kept groups, there is one
    group entity per kept group, each with an allowed address, and a
    mutation handed to the sink holds the collected entities and nothing
    else. *)
Theorem allow_list_keeps_listed_groups this h conn ents h1 allow :
  getOptionalStringArray (config this) "google.providers.ggroups.groups"
    = inr (Some allow) ->
  collect kebabCase this h = (inr (conn, ents), h1) ->
  exists new rs tail,
    h1 = h ++ new /\
    let kept :=
      List.filter (fun g => includes allow (Group.email g)) (listedGroups new) in
    length rs = length kept /\
    membersListCalls new = memberKey <$> kept /\
    ents = built kebabCase (lastURL new) kept rs /\
    (fun G => GroupSpec.profile_email (GroupEntity.spec G)) <$> groupEntities ents
      = Group.email <$> kept /\
    (forall G, Entity.OfGroup G ∈ ents ->
               includes allow (GroupSpec.profile_email (GroupEntity.spec G)) = true) /\
    snd (run kebabCase this h) = h ++ new ++ tail /\
    (forall mu, mu ∈ applyMutations (new ++ tail) ->
                mu = MutationFull (deferred <$> ents)).
Proof.
  intros Hg Hc.
  destruct (run_sink _ _ _ _ _ Hc) as (tail & Hsnd & Htail).
  destruct (collect_quiet _ _ _ _ _ Hc) as (new0 & Hh0 & Hquiet).
  apply collect_shape in Hc
    as (cust & gc & qc & new & rs & _ & Hgc & _ & _ & -> & _ & Hlen & Hcalls & _ & -> & _).
  apply app_inv_head in Hh0. subst new0.
  rewrite Hg in Hgc. inversion Hgc; subst gc. simpl in *.
  exists new, rs, tail.
  split; [reflexivity |]. split; [exact Hlen |]. split; [exact Hcalls |].
  split; [reflexivity |].
  split; [apply groupEntities_emails; exact Hlen |].
  split.
  { intros G HG. apply built_from in HG as (g & r & Hz & HG).
    apply elem_of_zip_l in Hz. apply list_elem_of_In, filter_In in Hz as [_ Hallow].
    apply elem_of_app in HG as [HG | HG].
    - apply list_elem_of_fmap in HG as (m & Heq & _). discriminate.
    - apply list_elem_of_singleton in HG. inversion HG; subst G.
      unfold groupOf.
      destruct (push_members_profile (nameOf <$> membersOf r)
                  (newGroupEntity kebabCase (lastURL new) g)) as (_ & He & _).
      rewrite He. exact Hallow. }
  split; [rewrite Hsnd, <- app_assoc; reflexivity |].
  intros mu Hmu. rewrite applyMutations_app, Hquiet, Htail in Hmu. simpl in Hmu.
  destruct (built kebabCase (lastURL new) _ rs) as [| e ents];
    [apply elem_of_nil in Hmu; contradiction |].
  apply list_elem_of_singleton in Hmu. exact Hmu.
Qed.

End Entities.

(** ** Provenance annotations *)

Section Provenance.

Variable kebabCase : option string -> string.

Lemma entitiesOf_annotations url g ms e :
  e ∈ entitiesOf kebabCase url g ms ->
  Metadata.annotations (Entity.metadata e) = locationAnnotations url.
Proof.
  intros H. apply elem_of_app in H as [H | H].
  - apply list_elem_of_fmap in H as (m & -> & _). reflexivity.
  - apply list_elem_of_singleton in H. subst e. simpl.
    unfold groupOf. rewrite push_members_metadata. reflexivity.
Qed.

(** Every collected entity carries, in both annotations, the URL of the
    last listing answer of the run, whichever call listed its group. *)
Lemma collected_entities_carry_last_url this h conn ents new e :
  collect kebabCase this h = (inr (conn, ents), h ++ new) ->
  e ∈ ents ->
  Metadata.annotations (Entity.metadata e) !! ANNOTATION_LOCATION
    = Some ("ggroups:" +:+ lastURL new) /\
  Metadata.annotations (Entity.metadata e) !! ANNOTATION_ORIGIN_LOCATION
    = Some ("ggroups:" +:+ lastURL new).
Proof.
  intros Hc He.
  apply collect_shape in Hc
    as (cust & gc & qc & new' & rs & _ & _ & _ & _ & Hh & _ & _ & _ & _ & -> & _).
  apply app_inv_head in Hh. subst new'.
  apply built_from in He as (g & r & _ & He).
  rewrite (entitiesOf_annotations _ _ _ _ He). unfold locationAnnotations.
  split.
  - rewrite lookup_insert_ne by discriminate. apply lookup_insert_eq.
  - apply lookup_insert_eq.
Qed.

(** Without allow-list and query list, a run that collects its entities
    has issued one listing call and built one group entity per listed
    group, in order. *)
Lemma unfiltered_run_builds_every_listed_group this h conn ents new :
  getOptionalStringArray (config this) "google.providers.ggroups.groups"
    = inr None ->
  getOptionalStringArray (config this) "google.providers.ggroups.query"
    = inr None ->
  collect kebabCase this h = (inr (conn, ents), h ++ new) ->
  length (groupsListCalls new) = 1 /\
  (fun G => Metadata.uid (GroupEntity.metadata G)) <$> groupEntities ents
    = Group.id <$> listedGroups new /\
  length (groupEntities ents) = length (listedGroups new).
Proof.
  intros Hg Hq Hc.
  apply collect_shape in Hc
    as (cust & gc & qc & new' & rs & _ & Hgc & Hqc & _ & Hh & Hcalls & Hlen & _ & _ & -> & _).
  apply app_inv_head in Hh. subst new'.
  rewrite Hg in Hgc. rewrite Hq in Hqc. inversion Hgc; inversion Hqc; subst.
  simpl in *. rewrite Hcalls. split; [reflexivity |].
  rewrite groupEntities_built by exact Hlen.
  split; [rewrite <- groupEntities_built by exact Hlen;
          apply groupEntities_uids; exact Hlen |].
  rewrite length_zip_with. lia.
Qed.

End Provenance.

(** ** The sample runs *)

(** C3, on the code.  With the query list [a; b], group [g1] is listed by
    the call for [a], whose resolved URL is [urlA]; the entity built for
    it carries the URL of the call for [b] in both annotations. *)
Theorem annotations_name_the_last_listing_call :
  exists conn ents new G,
    collect kebabAscii twoQueriesProvider [] = (inr (conn, ents), new) /\
    GroupsList {| customer := "C12nfslfo"; query := Some "a" |} (inr answerA)
      ∈ new /\
    g1 ∈ groupsOf answerA /\
    Entity.OfGroup G ∈ ents /\
    Metadata.uid (GroupEntity.metadata G) = Group.id g1 /\
    Metadata.annotations (GroupEntity.metadata G) !! ANNOTATION_LOCATION
      = Some ("ggroups:" +:+ urlB) /\
    Metadata.annotations (GroupEntity.metadata G) !! ANNOTATION_ORIGIN_LOCATION
      = Some ("ggroups:" +:+ urlB) /\
    Metadata.annotations (GroupEntity.metadata G) !! ANNOTATION_LOCATION
      <> Some ("ggroups:" +:+ request_responseURL answerA).
Proof.
  exists sampleSink,
    (built kebabAscii urlB [g1; g2] [membersG1; membersNone]),
    (queryEvents "C12nfslfo" ["a"; "b"] [answerA; answerB]
     ++ loopEvents [g1; g2] [membersG1; membersNone]),
    (groupOf kebabAscii urlB g1 [jdoe; asmith]).
  split; [vm_compute; reflexivity |].
  split; [left |]. split; [left |].
  split; [simpl; unfold entitiesOf; simpl; do 2 right; left |].
  split; [reflexivity |].
  split; [vm_compute; reflexivity |].
  split; [vm_compute; reflexivity |].
  vm_compute. discriminate.
Qed.

(** C7, on the code.  No allow-list and no query list; the directory
    returns one group, and the member call for it succeeds with two
    members, one of them the whole domain, which has no email.  The run
    throws on reading the missing address: no entity is collected and the
    sink is not called. *)
Theorem member_without_email_aborts_the_run :
  run kebabAscii domainProvider []
  = (inl (TypeError "Cannot read properties of undefined (reading 'split')"),
     [GroupsList listAll
        (inr {| data_groups := Some [g1]; request_responseURL := urlAll |});
      MembersList {| groupKey := Some "g1" |} (inr membersDomain)]) /\
  fst (collect kebabAscii domainProvider [])
  = inl (TypeError "Cannot read properties of undefined (reading 'split')").
Proof. split; vm_compute; reflexivity. Qed.

(** C2, on the code.  No allow-list and no query list: the member call
    for the surviving group [g1] is answered with two records.  The first
    has the email
    address jdoe@example.com; the second, the whole domain, has none.
    The run throws on the second and collects nothing: no user entity for
    the first member, no group entity listing it, and no call to the
    sink. *)
Theorem member_with_email_is_lost_with_the_run :
  snd (run kebabAscii domainProvider [])
  = [GroupsList listAll
       (inr {| data_groups := Some [g1]; request_responseURL := urlAll |});
     MembersList (memberKey g1) (inr membersDomain)] /\
  getOptionalStringArray (config domainProvider)
    "google.providers.ggroups.groups" = inr None /\
  jdoe ∈ membersOf membersDomain /\
  Member.email jdoe = Some "jdoe@example.com" /\
  (exists e, run kebabAscii domainProvider []
             = (inl e, snd (run kebabAscii domainProvider []))) /\
  (forall conn ents h1,
     collect kebabAscii domainProvider [] <> (inr (conn, ents), h1)) /\
  applyMutations (snd (run kebabAscii domainProvider [])) = [].
Proof.
  split; [vm_compute; reflexivity |].
  split; [reflexivity |].
  split; [left |].
  split; [reflexivity |].
  split; [eexists; vm_compute; reflexivity |].
  split; [| vm_compute; reflexivity].
  intros conn ents h1 H.
  assert (Hf : fst (collect kebabAscii domainProvider [])
               = inl (TypeError
                        "Cannot read properties of undefined (reading 'split')"))
    by (vm_compute; reflexivity).
  rewrite H in Hf. discriminate.
Qed.

(** ** The theorems at the sample runs *)

Lemma run_applies_one_full_mutation_sample :
  collect kebabAscii allGroupsProvider []
  = (inr (sampleSink,
          built kebabAscii urlAll [g1; g2] [membersG1; membersNone]),
     GroupsList listAll (inr answerAll)
       :: loopEvents [g1; g2] [membersG1; membersNone]) /\
  exists new,
    snd (run kebabAscii allGroupsProvider []) = [] ++ new /\
    (built kebabAscii urlAll [g1; g2] [membersG1; membersNone] <> [] ->
     exists des,
       applyMutations new = [MutationFull des] /\
       entity <$> des
       = built kebabAscii urlAll [g1; g2] [membersG1; membersNone] /\
       Forall (fun d =>
                 locationKey d
                 = Metadata.annotations (Entity.metadata (entity d))
                     !! ANNOTATION_LOCATION) des) /\
    (built kebabAscii urlAll [g1; g2] [membersG1; membersNone] = [] ->
     applyMutations new = [] /\
     fst (run kebabAscii allGroupsProvider []) = inr tt).
Proof.
  assert (H : collect kebabAscii allGroupsProvider []
              = (inr (sampleSink,
                      built kebabAscii urlAll [g1; g2] [membersG1; membersNone]),
                 GroupsList listAll (inr answerAll)
                   :: loopEvents [g1; g2] [membersG1; membersNone]))
    by (vm_compute; reflexivity).
  split; [exact H |].
  exact (run_applies_one_full_mutation kebabAscii _ _ _ _ _ H).
Defined.

Lemma failed_run_applies_no_mutation_sample :
  run kebabAscii brokenProvider []
  = (inl (DirectoryApiError "503 Service Unavailable"),
     [GroupsList listAll (inr answerAll);
      MembersList (memberKey g1) (inr membersG1); Sleep 1000;
      MembersList (memberKey g2) (inl "503 Service Unavailable")]) /\
  exists new,
    [GroupsList listAll (inr answerAll);
     MembersList (memberKey g1) (inr membersG1); Sleep 1000;
     MembersList (memberKey g2) (inl "503 Service Unavailable")] = [] ++ new /\
    applyMutations new = [].
Proof.
  assert (H : run kebabAscii brokenProvider []
              = (inl (DirectoryApiError "503 Service Unavailable"),
                 [GroupsList listAll (inr answerAll);
                  MembersList (memberKey g1) (inr membersG1); Sleep 1000;
                  MembersList (memberKey g2) (inl "503 Service Unavailable")]))
    by (vm_compute; reflexivity).
  split; [exact H |].
  apply (failed_run_applies_no_mutation kebabAscii _ _ _ _ H).
  intros msg. discriminate.
Defined.

Lemma invalid_filters_throw_before_any_call_sample :
  exists e new,
    run kebabAscii bothListsProvider [] = (inl e, [] ++ new) /\
    Forall isLog new /\
    groupsListCalls new = [] /\ membersListCalls new = [] /\
    applyMutations new = [].
Proof.
  apply (invalid_filters_throw_before_any_call kebabAscii bothListsProvider []).
  left. exists ["g1@x.com"], ["a"; "b"]. split; reflexivity.
Defined.

Lemma empty_allow_list_is_a_noop_sample :
  (forall fetched, default [] (filterGroups (Some []) fetched) = []) /\
  (exists new,
     snd (run kebabAscii emptyAllowProvider []) = [] ++ new /\
     membersListCalls new = [] /\ applyMutations new = []) /\
  (forall conn ents h1,
     collect kebabAscii emptyAllowProvider [] = (inr (conn, ents), h1) ->
     ents = []).
Proof.
  apply (empty_allow_list_is_a_noop kebabAscii emptyAllowProvider []).
  reflexivity.
Defined.

Lemma missing_groups_field_is_an_empty_sync_sample :
  run kebabAscii noGroupsFieldProvider []
  = (inr tt, [] ++ [GroupsList listAll (inr answerNone)]) /\
  membersListCalls [GroupsList listAll (inr answerNone)] = [] /\
  applyMutations [GroupsList listAll (inr answerNone)] = [].
Proof.
  apply (missing_groups_field_is_an_empty_sync kebabAscii
           noGroupsFieldProvider [] [GroupsList listAll (inr answerNone)]
           listAll answerNone).
  - reflexivity.
  - vm_compute. reflexivity.
  - left.
  - reflexivity.
Defined.

Lemma one_listing_call_per_query_sample :
  exists rs,
    length rs = length ["a"; "b"] /\
    run kebabAscii twoQueriesProvider []
    = bind (forEachGroup kebabAscii sampleDirectory (last rs)
              (concat (groupsOf <$> rs)) [])
        (submit sampleSink) ([] ++ queryEvents "C12nfslfo" ["a"; "b"] rs) /\
    forall new,
      snd (run kebabAscii twoQueriesProvider []) = [] ++ new ->
      groupsListCalls new
      = (fun q => {| customer := "C12nfslfo"; query := Some q |}) <$> ["a"; "b"].
Proof.
  apply (one_listing_call_per_query kebabAscii twoQueriesProvider []
           sampleSink sampleDirectory "C12nfslfo" ["a"; "b"]).
  - reflexivity.
  - reflexivity.
  - reflexivity.
  - reflexivity.
  - reflexivity.
  - discriminate.
  - intros new H. vm_compute in H. subst new. intros Hex.
    repeat match goal with
           | H : Exists _ (_ :: _) |- _ => inversion H; clear H; subst
           | H : Exists _ [] |- _ => inversion H
           | H : isFailedListing _ |- _ => exact H
           end.
Defined.

Lemma member_becomes_user_of_its_group_sample :
  exists u G g gc,
    Entity.OfUser u
      ∈ built kebabAscii urlAll [g1; g2] [membersG1; membersNone] /\
    Entity.OfGroup G
      ∈ built kebabAscii urlAll [g1; g2] [membersG1; membersNone] /\
    UserEntity.kind u = "User" /\
    Metadata.uid (UserEntity.metadata u) = Member.id jdoe /\
    Metadata.name (UserEntity.metadata u) = split_head "@" "jdoe@example.com" /\
    (forall c,
       c ∈ list_ascii_of_string (Metadata.name (UserEntity.metadata u)) ->
       c <> "@"%char) /\
    ("jdoe@example.com" = Metadata.name (UserEntity.metadata u) \/
     exists d,
       "jdoe@example.com" = Metadata.name (UserEntity.metadata u) +:+ "@" +:+ d) /\
    UserSpec.memberOf (UserEntity.spec u)
      = [Metadata.name (GroupEntity.metadata G)] /\
    Metadata.name (GroupEntity.metadata G) = kebabAscii (Group.name g) /\
    GroupSpec.profile_displayName (GroupEntity.spec G) = Group.name g /\
    Metadata.uid (GroupEntity.metadata G) = groupKey (memberKey g1) /\
    Metadata.name (UserEntity.metadata u)
      ∈ GroupSpec.members (GroupEntity.spec G) /\
    getOptionalStringArray (config allGroupsProvider)
      "google.providers.ggroups.groups" = inr gc /\
    g ∈ keep gc
          (listedGroups
             (GroupsList listAll (inr answerAll)
                :: loopEvents [g1; g2] [membersG1; membersNone])) /\
    memberKey g = memberKey g1.
Proof.
  apply (member_becomes_user_of_its_group kebabAscii allGroupsProvider []
           sampleSink
           (built kebabAscii urlAll [g1; g2] [membersG1; membersNone])
           (GroupsList listAll (inr answerAll)
              :: loopEvents [g1; g2] [membersG1; membersNone])
           (memberKey g1) membersG1 jdoe "jdoe@example.com").
  - vm_compute. reflexivity.
  - simpl. right. left.
  - left.
  - reflexivity.
Defined.

Lemma allow_list_keeps_listed_groups_sample :
  exists new rs tail,
    GroupsList listAll (inr answerAll) :: loopEvents [g1] [membersG1]
    = [] ++ new /\
    let kept :=
      List.filter (fun g => includes ["g1@x.com"] (Group.email g))
        (listedGroups new) in
    length rs = length kept /\
    membersListCalls new = memberKey <$> kept /\
    built kebabAscii urlAll [g1] [membersG1]
    = built kebabAscii (lastURL new) kept rs /\
    (fun G => GroupSpec.profile_email (GroupEntity.spec G))
      <$> groupEntities (built kebabAscii urlAll [g1] [membersG1])
    = Group.email <$> kept /\
    (forall G,
       Entity.OfGroup G ∈ built kebabAscii urlAll [g1] [membersG1] ->
       includes ["g1@x.com"] (GroupSpec.profile_email (GroupEntity.spec G))
       = true) /\
    snd (run kebabAscii allowProvider []) = [] ++ new ++ tail /\
    (forall mu,
       mu ∈ applyMutations (new ++ tail) ->
       mu = MutationFull (deferred <$> built kebabAscii urlAll [g1] [membersG1])).
Proof.
  apply (allow_list_keeps_listed_groups kebabAscii allowProvider []
           sampleSink (built kebabAscii urlAll [g1] [membersG1])
           (GroupsList listAll (inr answerAll) :: loopEvents [g1] [membersG1])
           ["g1@x.com"]).
  - reflexivity.
  - vm_compute. reflexivity.
Defined.

(** * More properties of the provider *)

(** ** Every way a run can go *)

Section AnatomyProof.

Variable kebabCase : option string -> string.

Lemma run_checks_cases this h :
  (exists e new,
     run kebabCase this h = (inl e, h ++ new) /\
     fromChecks e /\ (new = [] \/ new = [LogError e])) \/
  (exists conn client cust gc qc, Passed this conn client cust gc qc).
Proof.
  unfold Passed, run, collect, checkLifecycle, readConfig, bind, liftConfig,
    validConfig.
  destruct (connection this) as [conn |]; simpl;
    [| left; eexists _, [_]; split; [reflexivity | split; [exact I | auto]]].
  destruct (directoryApiClient this) as [client |]; simpl;
    [| left; eexists _, [_]; split; [reflexivity | split; [exact I | auto]]].
  destruct (getString _ _) as [m | cust]; simpl;
    [left; eexists _, [_]; split; [reflexivity | split; [exact I | auto]] |].
  destruct (getOptionalStringArray _ "google.providers.ggroups.groups")
    as [m | gc]; simpl;
    [left; eexists _, []; rewrite app_nil_r;
     split; [reflexivity | split; [exact I | auto]] |].
  destruct (getOptionalStringArray _ "google.providers.ggroups.query")
    as [m | qc]; simpl;
    [left; eexists _, []; rewrite app_nil_r;
     split; [reflexivity | split; [exact I | auto]] |].
  destruct gc as [a |], qc as [[| q qs] |]; simpl;
    try (left; eexists _, [_]; split; [reflexivity | split; [exact I | auto]]);
    right; exists conn, client, cust; eexists _, _;
    repeat split; auto; congruence.
Qed.

Lemma forEachQuery_trace client cust qs gr gs h :
  (exists rs,
     length rs = length qs /\
     forEachQuery client cust qs gr gs h
     = (inr (from_option Some gr (last rs), gs ++ concat (groupsOf <$> rs)),
        h ++ listingEvents (listingParams cust (Some qs)) rs)) \/
  (exists qs1 q qs2 rs m,
     qs = qs1 ++ q :: qs2 /\ length rs = length qs1 /\
     forEachQuery client cust qs gr gs h
     = (inl (DirectoryApiError m),
        h ++ listingEvents (listingParams cust (Some qs1)) rs
          ++ [GroupsList {| customer := cust; query := Some q |} (inl m)])).
Proof.
  revert gr gs h. induction qs as [| q qs IH]; intros gr gs h; simpl.
  - left. exists []. simpl. rewrite !app_nil_r. auto.
  - unfold bind, call_groups_list.
    destruct (groups_list client h {| customer := cust; query := Some q |})
      as [m | r].
    + right. exists [], q, qs, [], m. simpl. auto.
    + destruct (IH (Some r) (gs ++ default [] (data_groups r))
                   (h ++ [GroupsList {| customer := cust; query := Some q |} (inr r)]))
        as [(rs & Hlen & ->) | (qs1 & q' & qs2 & rs & m & -> & Hlen & ->)].
      * left. exists (r :: rs). simpl. rewrite Hlen, <- !app_assoc. simpl.
        rewrite last_cons. split; [reflexivity |]. destruct (last rs); reflexivity.
      * right. exists (q :: qs1), q', qs2, (r :: rs), m. simpl.
        rewrite Hlen, <- !app_assoc. simpl. auto.
Qed.

Lemma fetchGroups_cases client cust qc h :
  qc <> Some [] ->
  (exists grs resp fetched,
     length grs = length (listingParams cust qc) /\
     last grs = Some resp /\
     default [] fetched = concat (groupsOf <$> grs) /\
     fetchGroups client cust qc h
     = (inr (Some resp, fetched),
        h ++ listingEvents (listingParams cust qc) grs)) \/
  (exists ps1 p ps2 grs m,
     listingParams cust qc = ps1 ++ p :: ps2 /\ length grs = length ps1 /\
     fetchGroups client cust qc h
     = (inl (DirectoryApiError m),
        h ++ listingEvents ps1 grs ++ [GroupsList p (inl m)])).
Proof.
  intros Hq. unfold fetchGroups. destruct qc as [qs |].
  - unfold bind.
    destruct (forEachQuery_trace client cust qs None [] h)
      as [(rs & Hlen & ->) | (qs1 & q & qs2 & rs & m & -> & Hlen & ->)].
    + left. destruct (last rs) as [resp |] eqn:Hlast.
      * exists rs, resp, (Some (concat (groupsOf <$> rs))). simpl.
        rewrite length_fmap. auto.
      * apply last_None in Hlast. subst rs. destruct qs; [congruence | discriminate].
    + right. eexists _, _, _, rs, m. simpl. rewrite fmap_app. simpl.
      split; [reflexivity |]. rewrite length_fmap. auto.
  - unfold bind, call_groups_list.
    destruct (groups_list client h {| customer := cust; query := None |})
      as [m | r].
    + right. exists [], {| customer := cust; query := None |}, [], [], m. auto.
    + left. exists [r], r, (data_groups r). simpl.
      unfold groupsOf. rewrite app_nil_r. auto.
Qed.

Lemma forEachGroup_cases client resp gs ents h :
  (exists mrs,
     length mrs = length gs /\ Forall allHaveEmail mrs /\
     forEachGroup kebabCase client (Some resp) gs ents h
     = (inr (ents ++ built kebabCase (request_responseURL resp) gs mrs),
        h ++ loopEvents gs mrs)) \/
  (exists gs1 g gs2 mrs m,
     gs = gs1 ++ g :: gs2 /\ length mrs = length gs1 /\
     Forall allHaveEmail mrs /\
     forEachGroup kebabCase client (Some resp) gs ents h
     = (inl (DirectoryApiError m),
        h ++ loopEvents gs1 mrs ++ [MembersList (memberKey g) (inl m)])) \/
  (exists gs1 g gs2 mrs r,
     gs = gs1 ++ g :: gs2 /\ length mrs = length gs1 /\
     Forall allHaveEmail mrs /\
     forallb hasEmail (membersOf r) = false /\
     forEachGroup kebabCase client (Some resp) gs ents h
     = (inl (TypeError "Cannot read properties of undefined (reading 'split')"),
        h ++ loopEvents gs1 mrs ++ [MembersList (memberKey g) (inr r)])).
Proof.
  revert ents h. induction gs as [| g gs IH]; intros ents h.
  - left. exists []. simpl. rewrite !app_nil_r. repeat split; auto.
  - simpl. rewrite (bind_inr _ _ h (request_responseURL resp) h) by reflexivity.
    destruct (members_list client h {| groupKey := Group.id g |})
      as [m | r] eqn:Hm.
    { right. left. exists [], g, gs, [], m. simpl.
      split; [reflexivity |]. split; [reflexivity |]. split; [constructor |].
      apply bind_inl. unfold call_members_list. rewrite Hm. reflexivity. }
    rewrite (bind_inr _ _ h r
               (h ++ [MembersList {| groupKey := Group.id g |} (inr r)]))
      by (unfold call_members_list; rewrite Hm; reflexivity).
    fold (membersOf r).
    destruct (forallb hasEmail (membersOf r)) eqn:He.
    2:{ right. right. exists [], g, gs, [], r. simpl.
        split; [reflexivity |]. split; [reflexivity |]. split; [constructor |].
        split; [exact He |].
        apply bind_inl. rewrite forEachMember_spec, He. reflexivity. }
    rewrite (bind_inr _ _ _
               (fold_left GroupEntity.push_member (nameOf <$> membersOf r)
                  (newGroupEntity kebabCase (request_responseURL resp) g),
                ents ++ (Entity.OfUser
                           ∘ (fun m => newUserEntity (request_responseURL resp)
                                         (newGroupEntity kebabCase
                                            (request_responseURL resp) g)
                                         m (nameOf m)) <$> membersOf r))
               (h ++ [MembersList {| groupKey := Group.id g |} (inr r)]))
      by (rewrite forEachMember_spec, He; reflexivity).
    rewrite (bind_inr _ _ _ tt
               ((h ++ [MembersList {| groupKey := Group.id g |} (inr r)])
                  ++ [Sleep 1000])) by reflexivity.
    match goal with
    | |- context [forEachGroup _ _ _ gs ?e ?h0] =>
        destruct (IH e h0)
          as [(mrs & Hlen & Hall & ->)
             | [(gs1 & g' & gs2 & mrs & m & -> & Hlen & Hall & ->)
               | (gs1 & g' & gs2 & mrs & r' & -> & Hlen & Hall & Hno & ->)]]
    end.
    + left. exists (r :: mrs). simpl. rewrite Hlen, <- !app_assoc. simpl.
      split; [reflexivity |]. split; [constructor; assumption |].
      unfold entitiesOf, groupOf, userOf. rewrite <- !app_assoc. reflexivity.
    + right. left. exists (g :: gs1), g', gs2, (r :: mrs), m. simpl.
      rewrite Hlen, <- !app_assoc. simpl.
      repeat split; auto; constructor; assumption.
    + right. right. exists (g :: gs1), g', gs2, (r :: mrs), r'. simpl.
      rewrite Hlen, <- !app_assoc. simpl.
      repeat split; auto; constructor; assumption.
Qed.

(** A run whose checks pass goes one of the ways of [RunShape], and what
    it throws, if anything, does not come from the checks. *)
Lemma passed_anatomy this h conn client cust gc qc :
  Passed this conn client cust gc qc ->
  exists r new,
    run kebabCase this h = (r, h ++ new) /\ RunShape kebabCase this r new /\
    (forall e, r = inl e -> ~ fromChecks e).
Proof.
  intros HP.
  pose proof HP as (Hconn & Hclient & Hcust & Hgc & Hqc & Hv).
  rewrite (run_after_checks _ _ _ _ _ _ _ _ Hconn Hclient Hcust Hgc Hqc Hv).
  unfold bind at 1.
  destruct (fetchGroups_cases client cust qc h (proj2 Hv))
    as [(grs & resp & fetched & Hlen & Hlast & Hf & ->)
       | (ps1 & p & ps2 & grs & m & Hps & Hlen & ->)].
  2:{ eexists _, _. split; [reflexivity |].
      split; [econstructor; eassumption |].
      intros e He. inversion He. auto. }
  rewrite keep_filterGroups, Hf. unfold bind.
  assert (Hurl : request_responseURL resp = urlOfLast grs)
    by (unfold urlOfLast; rewrite Hlast; reflexivity).
  destruct (forEachGroup_cases client resp (keep gc (concat (groupsOf <$> grs)))
              [] (h ++ listingEvents (listingParams cust qc) grs))
    as [(mrs & Hl & Hall & ->)
       | [(gs1 & g & gs2 & mrs & m & Hk & Hl & Hall & ->)
         | (gs1 & g & gs2 & mrs & r & Hk & Hl & Hall & Hno & ->)]].
  - rewrite app_nil_l, Hurl.
    remember (built kebabCase (urlOfLast grs)
                (keep gc (concat (groupsOf <$> grs))) mrs) as ents eqn:Hb.
    destruct ents as [| e ents].
    + eexists _, _. simpl. rewrite <- app_assoc. split; [reflexivity |].
      split; [| discriminate].
      eapply ShapeNothing; try eassumption. symmetry. exact Hb.
    + unfold submit, call_applyMutation. rewrite Hb.
      eexists _, _. rewrite <- !app_assoc. split; [reflexivity |].
      split; [eapply ShapeSink; try eassumption; rewrite <- Hb; discriminate |].
      intros e0 He0. destruct (applyMutation conn _ _); inversion He0. auto.
  - eexists _, _. rewrite <- !app_assoc. split; [reflexivity |].
    split; [eapply ShapeMember; eassumption |].
    intros e He. inversion He. auto.
  - eexists _, _. rewrite <- !app_assoc. split; [reflexivity |].
    split; [eapply ShapeNoEmail; eassumption |].
    intros e He. inversion He. auto.
Qed.

(** Every run goes one of the ways of [RunShape]. *)
Lemma run_anatomy this h :
  exists r new,
    run kebabCase this h = (r, h ++ new) /\ RunShape kebabCase this r new.
Proof.
  destruct (run_checks_cases this h)
    as [(e & new & Hr & He & Hnew) | (conn & client & cust & gc & qc & HP)].
  - exists (inl e), new. split; [exact Hr | constructor; assumption].
  - destruct (passed_anatomy this h _ _ _ _ _ HP) as (r & new & Hr & Hs & _).
    exists r, new. auto.
Qed.

End AnatomyProof.

(** ** Reading the events of a shape *)

Lemma omap_nothing {A} (f : Event -> option A) (l : History) :
  Forall (fun e => f e = None) l -> omap f l = [].
Proof. induction 1 as [| e l He _ IH]; simpl; [| rewrite He]; auto. Qed.

Lemma listingEvents_all ps rs : Forall isGroupsList (listingEvents ps rs).
Proof.
  revert rs. induction ps as [| p ps IH]; intros [| r rs]; simpl;
    constructor; [exact I | apply IH].
Qed.

Lemma loopEvents_all gs rs : Forall isLoopEvent (loopEvents gs rs).
Proof.
  revert rs. induction gs as [| g gs IH]; intros [| r rs]; simpl;
    repeat constructor. apply IH.
Qed.

Lemma listing_quiet {A} (f : Event -> option A) ps rs :
  (forall p r, f (GroupsList p r) = None) -> omap f (listingEvents ps rs) = [].
Proof.
  intros Hf. apply omap_nothing. eapply Forall_impl; [apply listingEvents_all |].
  intros [] H; simpl in H; try contradiction. apply Hf.
Qed.

Lemma loop_quiet {A} (f : Event -> option A) gs rs :
  (forall p r, f (MembersList p r) = None) -> (forall ms, f (Sleep ms) = None) ->
  omap f (loopEvents gs rs) = [].
Proof.
  intros Hm Hs. apply omap_nothing. eapply Forall_impl; [apply loopEvents_all |].
  intros [] H; simpl in H; try contradiction; [apply Hm | apply Hs].
Qed.

Lemma groupsListCalls_listingEvents ps rs :
  length rs = length ps -> groupsListCalls (listingEvents ps rs) = ps.
Proof.
  revert rs. induction ps as [| p ps IH]; intros [| r rs] Hlen;
    simpl in *; try discriminate; try reflexivity.
  unfold groupsListCalls in *. simpl. f_equal. apply IH. lia.
Qed.

Lemma listingResponses_listingEvents ps rs :
  length rs = length ps -> listingResponses (listingEvents ps rs) = rs.
Proof.
  revert rs. induction ps as [| p ps IH]; intros [| r rs] Hlen;
    simpl in *; try discriminate; try reflexivity.
  unfold listingResponses in *. simpl. f_equal. apply IH. lia.
Qed.

Lemma memberAnswers_loopEvents gs rs :
  length rs = length gs -> memberAnswers (loopEvents gs rs) = rs.
Proof.
  revert rs. induction gs as [| g gs IH]; intros [| r rs] Hlen;
    simpl in *; try discriminate; try reflexivity.
  unfold memberAnswers in *. simpl. f_equal. apply IH. lia.
Qed.

Lemma sleeps_loopEvents gs rs :
  length rs = length gs -> sleeps (loopEvents gs rs) = replicate (length gs) 1000%Z.
Proof.
  revert rs. induction gs as [| g gs IH]; intros [| r rs] Hlen;
    simpl in *; try discriminate; try reflexivity.
  unfold sleeps in *. simpl. f_equal. apply IH. lia.
Qed.

Lemma membersListCalls_loop gs rs :
  length rs = length gs -> membersListCalls (loopEvents gs rs) = memberKey <$> gs.
Proof. apply membersListCalls_loopEvents. Qed.

(** What each reading makes of the three kinds of segments. *)
Ltac read_events :=
  unfold groupsListCalls, membersListCalls, applyMutations, sleeps, logged,
    memberAnswers, listingResponses in *;
  rewrite ?omap_app in *;
  repeat first
    [ rewrite (listing_quiet membersListCall) in * by reflexivity
    | rewrite (listing_quiet sinkMutation) in * by reflexivity
    | rewrite (listing_quiet sleepOf) in * by reflexivity
    | rewrite (listing_quiet logOf) in * by reflexivity
    | rewrite (listing_quiet memberAnswer) in * by reflexivity
    | rewrite (loop_quiet groupsListCall) in * by reflexivity
    | rewrite (loop_quiet listingResponse) in * by reflexivity
    | rewrite (loop_quiet sinkMutation) in * by reflexivity
    | rewrite (loop_quiet logOf) in * by reflexivity ];
  fold groupsListCalls membersListCalls applyMutations sleeps logged
    memberAnswers listingResponses in *;
  repeat first
    [ rewrite groupsListCalls_listingEvents in * by (assumption || lia)
    | rewrite listingResponses_listingEvents in * by (assumption || lia)
    | rewrite memberAnswers_loopEvents in * by (assumption || lia)
    | rewrite sleeps_loopEvents in * by (assumption || lia)
    | rewrite membersListCalls_loop in * by (assumption || lia) ];
  simpl in *;
  rewrite ?app_nil_r, ?app_nil_l in *.

Lemma in_listingEvents e ps rs :
  e ∈ listingEvents ps rs -> exists p r, e = GroupsList p (inr r) /\ r ∈ rs.
Proof.
  revert rs. induction ps as [| p ps IH]; intros [| r rs]; simpl;
    try (intros H; apply elem_of_nil in H; contradiction).
  intros H. apply elem_of_cons in H as [-> | H].
  - exists p, r. split; [reflexivity | left].
  - apply IH in H as (p' & r' & -> & Hr). exists p', r'. split; [reflexivity | right; exact Hr].
Qed.

Lemma in_loopEvents e gs rs :
  e ∈ loopEvents gs rs ->
  (exists g r, e = MembersList (memberKey g) (inr r) /\ (g, r) ∈ zip gs rs) \/
  e = Sleep 1000.
Proof.
  revert rs. induction gs as [| g gs IH]; intros [| r rs]; simpl;
    try (intros H; apply elem_of_nil in H; contradiction).
  intros H. apply elem_of_cons in H as [-> | H].
  - left. exists g, r. split; [reflexivity | left].
  - apply elem_of_cons in H as [-> | H]; [right; reflexivity |].
    apply IH in H as [(g' & r' & -> & Hz) | ->]; [left | right; reflexivity].
    exists g', r'. split; [reflexivity | right; exact Hz].
Qed.

Lemma totalSleep_replicate n :
  foldr Z.add 0%Z (replicate n 1000%Z) = (1000 * Z.of_nat n)%Z.
Proof. induction n as [| n IH]; simpl replicate; simpl foldr; [reflexivity | lia]. Qed.

(** ** Lifecycle and configuration errors *)

Section CheckErrors.

Variable kebabCase : option string -> string.

(** A run on a provider without a connection throws "connection not
    initialized" and has only logged that error, whatever the state of the
    client and of the configuration. *)
Theorem run_before_connect_throws this h :
  connection this = None ->
  run kebabCase this h
  = (inl (ProviderError "Provider connection not initialized."),
     h ++ [LogError (ProviderError "Provider connection not initialized.")]).
Proof.
  intros Hc. unfold run, collect, checkLifecycle, bind. rewrite Hc. reflexivity.
Qed.

(** The provider as its constructor leaves it cannot run: connected before
    the client initialization has settled, or after it was rejected, a run
    throws "client not initialized"; with the client ready but no
    connection it throws "connection not initialized".  Nothing but the
    error is logged either way. *)
Theorem constructed_provider_is_not_ready cfg c d m h :
  run kebabCase (connect (construct cfg) c) h
  = (inl (ProviderError "Google Admin SDK Directory API client not initialized."),
     h ++ [LogError
             (ProviderError
                "Google Admin SDK Directory API client not initialized.")]) /\
  run kebabCase (connect (initializeGoogleApiClient (construct cfg) (inl m)) c) h
  = run kebabCase (connect (construct cfg) c) h /\
  run kebabCase (initializeGoogleApiClient (construct cfg) (inr d)) h
  = (inl (ProviderError "Provider connection not initialized."),
     h ++ [LogError (ProviderError "Provider connection not initialized.")]).
Proof. repeat split; reflexivity. Qed.

(** Connecting and the settling of the client initialization commute, and
    once both have happened a run that throws does not throw a lifecycle
    error. *)
Theorem ready_provider_passes_lifecycle cfg c d h e :
  fst (run kebabCase (connect (initializeGoogleApiClient (construct cfg) (inr d)) c) h)
  = inl e ->
  e <> ProviderError "Provider connection not initialized." /\
  e <> ProviderError "Google Admin SDK Directory API client not initialized." /\
  initializeGoogleApiClient (connect (construct cfg) c) (inr d)
  = connect (initializeGoogleApiClient (construct cfg) (inr d)) c.
Proof.
  intros Hthrow.
  assert (Hgoal : e <> ProviderError "Provider connection not initialized." /\
                  e <> ProviderError
                         "Google Admin SDK Directory API client not initialized.");
    [| split; [apply Hgoal | split; [apply Hgoal | reflexivity]]].
  revert Hthrow.
  set (this := connect (initializeGoogleApiClient (construct cfg) (inr d)) c).
  destruct (readConfig_cases (config this) h)
    as [(e0 & new & Hr & _) | (cust & gc & qc & H1 & H2 & H3 & H4 & _)].
  - assert (Hrun : run kebabCase this h = (inl e0, h ++ new)).
    { unfold run, collect, bind. simpl. unfold bind in Hr.
      change (readConfig cfg h) with (readConfig (config this) h).
      rewrite Hr. reflexivity. }
    rewrite Hrun. simpl. intros He. inversion He; subst e0.
    clear Hrun He. revert Hr.
    unfold readConfig, bind, liftConfig. simpl.
    destruct (getString cfg _); simpl; [intros H; inversion H; split; discriminate |].
    destruct (getOptionalStringArray cfg "google.providers.ggroups.groups")
      as [m | gc]; simpl; [intros H; inversion H; split; discriminate |].
    destruct (getOptionalStringArray cfg "google.providers.ggroups.query")
      as [m | qc]; simpl; [intros H; inversion H; split; discriminate |].
    destruct gc as [a |], qc as [[| q qs] |]; simpl;
      intros H; inversion H; split; discriminate.
  - assert (HP : Passed this c d cust gc qc) by (repeat split; auto; apply H4).
    destruct (passed_anatomy kebabCase this h _ _ _ _ _ HP) as (r & new & Hr & _ & Hn).
    rewrite Hr. simpl. intros ->.
    specialize (Hn e eq_refl). split; intros ->; apply Hn; exact I.
Qed.

(** A failure to read [customerId] is logged and thrown again; no call is
    made. *)
Theorem customerId_failure_is_logged conn client m this h :
  connection this = Some conn ->
  directoryApiClient this = Some client ->
  getString (config this) "google.providers.ggroups.customerId" = inl m ->
  run kebabCase this h
  = (inl (ConfigError m), h ++ [LogError (ConfigError m)]).
Proof.
  intros Hc Hd Hs. unfold run, collect, checkLifecycle, readConfig, bind.
  rewrite Hc, Hd. simpl. rewrite Hs. reflexivity.
Qed.

(** A failure to read the allow-list or the query list is thrown as it is:
    unlike the failure of [customerId] it is not logged, and the history
    is left untouched. *)
Theorem optional_list_failure_is_not_logged conn client cust m this h :
  connection this = Some conn ->
  directoryApiClient this = Some client ->
  getString (config this) "google.providers.ggroups.customerId" = inr cust ->
  getOptionalStringArray (config this) "google.providers.ggroups.groups"
    = inl m \/
  (exists gc,
     getOptionalStringArray (config this) "google.providers.ggroups.groups"
       = inr gc /\
     getOptionalStringArray (config this) "google.providers.ggroups.query"
       = inl m) ->
  run kebabCase this h = (inl (ConfigError m), h).
Proof.
  intros Hc Hd Hs Hbad.
  unfold run, collect, checkLifecycle, readConfig, bind, liftConfig.
  rewrite Hc, Hd. simpl. rewrite Hs. simpl.
  destruct Hbad as [Hg | (gc & Hg & Hq)]; rewrite Hg; simpl;
    [| rewrite Hq]; reflexivity.
Qed.

(** With both lists set the run throws the "both defined" error, logged
    once, also when the query list is empty: that check comes first. *)
Theorem both_lists_error_comes_first conn client cust a q this h :
  connection this = Some conn ->
  directoryApiClient this = Some client ->
  getString (config this) "google.providers.ggroups.customerId" = inr cust ->
  getOptionalStringArray (config this) "google.providers.ggroups.groups"
    = inr (Some a) ->
  getOptionalStringArray (config this) "google.providers.ggroups.query"
    = inr (Some q) ->
  exists e,
    e = ProviderError
          "Neither google.providers.ggroups.groups or google.providers.ggroups.query are defined as config values." /\
    run kebabCase this h = (inl e, h ++ [LogError e]).
Proof.
  intros Hc Hd Hs Hg Hq. eexists. split; [reflexivity |].
  unfold run, collect, checkLifecycle, readConfig, bind, liftConfig.
  rewrite Hc, Hd. simpl. rewrite Hs. simpl. rewrite Hg, Hq. reflexivity.
Qed.

(** With no allow-list and an empty query list the run throws the "no
    query expressions" error, logged once. *)
Theorem empty_query_list_error conn client cust this h :
  connection this = Some conn ->
  directoryApiClient this = Some client ->
  getString (config this) "google.providers.ggroups.customerId" = inr cust ->
  getOptionalStringArray (config this) "google.providers.ggroups.groups"
    = inr None ->
  getOptionalStringArray (config this) "google.providers.ggroups.query"
    = inr (Some []) ->
  exists e,
    e = ProviderError
          "google.providers.ggroups.query array has no query expressions defined." /\
    run kebabCase this h = (inl e, h ++ [LogError e]).
Proof.
  intros Hc Hd Hs Hg Hq. eexists. split; [reflexivity |].
  unfold run, collect, checkLifecycle, readConfig, bind, liftConfig.
  rewrite Hc, Hd. simpl. rewrite Hs. simpl. rewrite Hg, Hq. reflexivity.
Qed.

End CheckErrors.

(** ** What the events of any run look like *)

Section Traces.

Variable kebabCase : option string -> string.

Ltac anatomy this h Hsnd :=
  let r0 := fresh "r" in
  let new0 := fresh "new" in
  let Hrun := fresh "Hrun" in
  let Hshape := fresh "Hshape" in
  destruct (run_anatomy kebabCase this h) as (r0 & new0 & Hrun & Hshape);
  rewrite Hrun in *; simpl in Hsnd; apply app_inv_head in Hsnd; subst new0;
  inversion Hshape; subst; clear Hshape.

(** A run logs at most one error, only in its checks, and then throws that
    very error having done nothing else: rejected directory calls, failed
    property reads and rejections of the sink are thrown without a log. *)
Theorem run_logs_only_what_it_throws this h new e :
  snd (run kebabCase this h) = h ++ new ->
  e ∈ logged new ->
  fst (run kebabCase this h) = inl e /\ new = [LogError e] /\ fromChecks e.
Proof.
  intros Hsnd He. anatomy this h Hsnd; read_events;
    try (apply elem_of_nil in He; contradiction).
  - destruct H0 as [-> | ->]; simpl in He.
    + apply elem_of_nil in He. contradiction.
    + apply list_elem_of_singleton in He. subst. auto.
Qed.

Ltac same_config :=
  repeat match goal with
         | HP : Passed _ _ _ _ _ _ |- _ =>
             destruct HP as (? & ? & ? & ? & ? & ?)
         | H1 : ?x = inr ?a, H2 : ?x = inr ?b |- _ =>
             rewrite H1 in H2; inversion H2; subst; clear H2
         end.

(** The listing calls of a run are the calls its configuration asks for,
    in order, up to the first rejected one: a run never lists with another
    customer or another filter, and a run that returns has issued them
    all. *)
Theorem listing_calls_follow_the_configuration this h new cust qc :
  getString (config this) "google.providers.ggroups.customerId" = inr cust ->
  getOptionalStringArray (config this) "google.providers.ggroups.query"
    = inr qc ->
  snd (run kebabCase this h) = h ++ new ->
  groupsListCalls new `prefix_of` listingParams cust qc /\
  (fst (run kebabCase this h) = inr tt ->
   groupsListCalls new = listingParams cust qc).
Proof.
  intros Hcust Hqc Hsnd. anatomy this h Hsnd; same_config; read_events;
    try (split; [reflexivity | reflexivity]);
    try (split; [reflexivity | discriminate]).
  - split; [| discriminate].
    destruct H0 as [-> | ->]; apply prefix_nil.
  - split; [| discriminate].
    match goal with
    | H : listingParams _ _ = _ |- _ => rewrite H
    end.
    exists ps2. rewrite <- app_assoc. reflexivity.
Qed.

(** The member calls of a run are those of the kept groups, one each and
    in order, up to the point where the run stops: no member call is ever
    made for a group that was not listed or that the allow-list drops, and
    a run that returns has called for all the kept groups. *)
Theorem member_calls_follow_the_kept_groups this h new gc :
  getOptionalStringArray (config this) "google.providers.ggroups.groups"
    = inr gc ->
  snd (run kebabCase this h) = h ++ new ->
  membersListCalls new `prefix_of` memberKey <$> keep gc (listedGroups new) /\
  (fst (run kebabCase this h) = inr tt ->
   membersListCalls new = memberKey <$> keep gc (listedGroups new)).
Proof.
  intros Hgc Hsnd. unfold listedGroups.
  anatomy this h Hsnd; same_config; read_events;
    try (split; [reflexivity | reflexivity]);
    try (split; [apply prefix_nil | discriminate]).
  - destruct H0 as [-> | ->]; split; try apply prefix_nil; discriminate.
  - split; [| discriminate].
    match goal with
    | H : keep _ _ = _ |- _ => rewrite H
    end.
    rewrite fmap_app. simpl. exists (memberKey <$> gs2).
    rewrite <- app_assoc. reflexivity.
  - split; [| discriminate].
    match goal with
    | H : keep _ _ = _ |- _ => rewrite H
    end.
    rewrite fmap_app. simpl. exists (memberKey <$> gs2).
    rewrite <- app_assoc. reflexivity.
Qed.

Ltac not_among H :=
  repeat (apply elem_of_app in H as [H | H]);
  try (apply in_listingEvents in H as (? & ? & H & ?); discriminate H);
  try (apply in_loopEvents in H as [(? & ? & H & ?) | H]; discriminate H);
  try (apply list_elem_of_singleton in H; discriminate H);
  try (apply elem_of_nil in H; contradiction).

(** The sink is called at most once in a run, as the last thing the run
    does and with a full mutation that is never empty; the run returns if
    the sink accepts and throws the sink's rejection if it does not: there
    is no second attempt. *)
Theorem sink_call_is_last_and_decides_the_run this h new mu res :
  snd (run kebabCase this h) = h ++ new ->
  ApplyMutation mu res ∈ new ->
  exists pre des,
    new = pre ++ [ApplyMutation mu res] /\
    applyMutations pre = [] /\
    mu = MutationFull des /\ des <> [] /\
    fst (run kebabCase this h)
    = match res with Some msg => inl (SinkError msg) | None => inr tt end.
Proof.
  intros Hsnd Hin. anatomy this h Hsnd; try (not_among Hin; fail).
  - destruct H0 as [-> | ->]; not_among Hin.
  - apply elem_of_app in Hin as [Hin | Hin]; [not_among Hin |].
    apply elem_of_app in Hin as [Hin | Hin]; [not_among Hin |].
    apply list_elem_of_singleton in Hin. inversion Hin; subst.
    eexists (_ ++ _), _. rewrite <- app_assoc.
    split; [reflexivity |]. split; [read_events; reflexivity |].
    split; [reflexivity |]. split; [| reflexivity].
    match goal with
    | H : built _ _ _ _ <> [] |- _ =>
        intros Hd; apply H; apply fmap_nil_inv in Hd; exact Hd
    end.
Qed.

Lemma sleeps_of_run this h new :
  snd (run kebabCase this h) = h ++ new ->
  sleeps new = replicate (length (sleeps new)) 1000%Z /\
  (fst (run kebabCase this h) = inr tt \/
   (exists msg, fst (run kebabCase this h) = inl (SinkError msg)) ->
   length (sleeps new) = length (membersListCalls new) /\
   totalSleep new = (1000 * Z.of_nat (length (membersListCalls new)))%Z).
Proof.
  intros Hsnd. unfold totalSleep.
  anatomy this h Hsnd; read_events;
    rewrite ?length_replicate, ?length_fmap, ?length_app, ?totalSleep_replicate;
    simpl;
    try (split; [reflexivity |]; intros [Hx | (msg & Hx)]; discriminate Hx);
    try (split; [reflexivity |]; intros _; split; [reflexivity | lia]).
  - destruct H0 as [-> | ->]; simpl;
      (split; [reflexivity |]; intros [Hx | (msg & Hx)];
       [discriminate Hx | inversion Hx; subst; contradiction]).
Qed.

(** Every delay of a run is one second, and a run that gets to the sink
    or returns has slept once per member call: its delays add up to one
    second per kept group. *)
Theorem one_second_per_member_call this h new :
  snd (run kebabCase this h) = h ++ new ->
  sleeps new = replicate (length (sleeps new)) 1000%Z /\
  (fst (run kebabCase this h) = inr tt \/
   (exists msg, fst (run kebabCase this h) = inl (SinkError msg)) ->
   length (sleeps new) = length (membersListCalls new) /\
   totalSleep new = (1000 * Z.of_nat (length (membersListCalls new)))%Z).
Proof. apply sleeps_of_run. Qed.

(** The scheduled task gives a run ten minutes (catalog.ts, line 60): the
    delays alone of a run that returns after more than 600 member calls
    add up to more than that. *)
Theorem long_runs_outlast_the_task_timeout this h new :
  snd (run kebabCase this h) = h ++ new ->
  fst (run kebabCase this h) = inr tt ->
  (600 < length (membersListCalls new))%nat ->
  (timeout_ms ggroups_sync < totalSleep new)%Z.
Proof.
  intros Hsnd Hret Hmany.
  destruct (sleeps_of_run this h new Hsnd) as (_ & Htot).
  destruct (Htot (or_introl Hret)) as (_ & ->).
  unfold timeout_ms, ggroups_sync. simpl. lia.
Qed.

(** A member record without an email (absent or null) in the answer to a
    member call stops the run there: the run throws a TypeError, that of
    the failed read of [split], that call is its last event, and the sink
    is not called. *)
Theorem member_without_email_stops_the_run this h new p r m :
  snd (run kebabCase this h) = h ++ new ->
  MembersList p (inr r) ∈ new ->
  m ∈ membersOf r ->
  Member.email m = None ->
  (exists msg, fst (run kebabCase this h) = inl (TypeError msg)) /\
  last new = Some (MembersList p (inr r)) /\
  applyMutations new = [].
Proof.
  intros Hsnd Hin Hm He.
  assert (Hbad : forall mrs gs (g : Group.t),
             Forall allHaveEmail mrs -> (g, r) ∈ zip gs mrs -> False).
  { intros mrs gs g Hall Hz. apply elem_of_zip_r in Hz.
    rewrite Forall_forall in Hall. specialize (Hall _ Hz).
    unfold allHaveEmail in Hall. rewrite forallb_forall in Hall.
    apply list_elem_of_In in Hm. specialize (Hall _ Hm).
    unfold hasEmail in Hall. rewrite He in Hall. discriminate. }
  assert (Hloop : forall gs mrs,
             Forall allHaveEmail mrs ->
             MembersList p (inr r) ∈ loopEvents gs mrs -> False).
  { intros gs mrs Hall H. apply in_loopEvents in H as [(g & r' & Heq & Hz) | H];
      [| discriminate]. inversion Heq; subst. eapply Hbad; eassumption. }
  anatomy this h Hsnd.
  - destruct H0 as [-> | ->]; not_among Hin.
  - not_among Hin.
  - apply elem_of_app in Hin as [Hin | Hin]; [not_among Hin |].
    apply elem_of_app in Hin as [Hin | Hin]; [| not_among Hin].
    exfalso. eapply Hloop; eassumption.
  - apply elem_of_app in Hin as [Hin | Hin]; [not_among Hin |].
    apply elem_of_app in Hin as [Hin | Hin].
    + exfalso. eapply Hloop; eassumption.
    + apply list_elem_of_singleton in Hin. inversion Hin; subst.
      split; [eexists; reflexivity |]. split; [| read_events; reflexivity].
      rewrite !app_assoc. apply last_snoc.
  - apply elem_of_app in Hin as [Hin | Hin]; [not_among Hin |].
    exfalso. eapply Hloop; eassumption.
  - apply elem_of_app in Hin as [Hin | Hin]; [not_among Hin |].
    apply elem_of_app in Hin as [Hin | Hin]; [| not_among Hin].
    exfalso. eapply Hloop; eassumption.
Qed.

(** A rejected directory call, listing or member, stops the run there: the
    run throws the rejection with its message, the call is its last event,
    nothing is logged and the sink is not called. *)
Theorem rejected_call_stops_the_run this h new e m :
  snd (run kebabCase this h) = h ++ new ->
  e ∈ new ->
  failedCall e = Some m ->
  fst (run kebabCase this h) = inl (DirectoryApiError m) /\
  last new = Some e /\
  logged new = [] /\ applyMutations new = [].
Proof.
  intros Hsnd Hin Hf.
  assert (Hlist : forall ps rs, e ∈ listingEvents ps rs -> False).
  { intros ps rs H. apply in_listingEvents in H as (p & r & -> & _). discriminate. }
  assert (Hloop : forall gs rs, e ∈ loopEvents gs rs -> False).
  { intros gs rs H. apply in_loopEvents in H as [(g & r & -> & _) | ->]; discriminate. }
  anatomy this h Hsnd.
  - destruct H0 as [-> | ->].
    + apply elem_of_nil in Hin. contradiction.
    + apply list_elem_of_singleton in Hin. subst. discriminate.
  - apply elem_of_app in Hin as [Hin | Hin]; [destruct (Hlist _ _ Hin) |].
    apply list_elem_of_singleton in Hin. subst. inversion Hf; subst.
    split; [reflexivity |]. split; [apply last_snoc |].
    split; read_events; reflexivity.
  - apply elem_of_app in Hin as [Hin | Hin]; [destruct (Hlist _ _ Hin) |].
    apply elem_of_app in Hin as [Hin | Hin]; [destruct (Hloop _ _ Hin) |].
    apply list_elem_of_singleton in Hin. subst. inversion Hf; subst.
    split; [reflexivity |]. split; [rewrite !app_assoc; apply last_snoc |].
    split; read_events; reflexivity.
  - apply elem_of_app in Hin as [Hin | Hin]; [destruct (Hlist _ _ Hin) |].
    apply elem_of_app in Hin as [Hin | Hin]; [destruct (Hloop _ _ Hin) |].
    apply list_elem_of_singleton in Hin. subst. discriminate.
  - apply elem_of_app in Hin as [Hin | Hin];
      [destruct (Hlist _ _ Hin) | destruct (Hloop _ _ Hin)].
  - apply elem_of_app in Hin as [Hin | Hin]; [destruct (Hlist _ _ Hin) |].
    apply elem_of_app in Hin as [Hin | Hin]; [destruct (Hloop _ _ Hin) |].
    apply list_elem_of_singleton in Hin. subst. discriminate.
Qed.

End Traces.

(** ** The entities of a run that collects them *)

Section Collected.

Variable kebabCase : option string -> string.

Lemma entitiesOf_cases url g ms e :
  e ∈ entitiesOf kebabCase url g ms ->
  (exists m, m ∈ ms /\ e = Entity.OfUser (userOf kebabCase url g m)) \/
  e = Entity.OfGroup (groupOf kebabCase url g ms).
Proof.
  intros H. apply elem_of_app in H as [H | H].
  - left. apply list_elem_of_fmap in H as (m & -> & Hm). exists m. auto.
  - right. apply list_elem_of_singleton in H. exact H.
Qed.

Lemma groupOf_fields url g ms :
  GroupEntity.apiVersion (groupOf kebabCase url g ms) = "backstage.io/v1alpha1" /\
  GroupEntity.kind (groupOf kebabCase url g ms) = "Group" /\
  GroupEntity.metadata (groupOf kebabCase url g ms)
  = GroupEntity.metadata (newGroupEntity kebabCase url g) /\
  GroupSpec.type (GroupEntity.spec (groupOf kebabCase url g ms)) = "team" /\
  GroupSpec.children (GroupEntity.spec (groupOf kebabCase url g ms)) = [] /\
  GroupSpec.members (GroupEntity.spec (groupOf kebabCase url g ms))
  = nameOf <$> ms /\
  GroupSpec.profile_displayName (GroupEntity.spec (groupOf kebabCase url g ms))
  = Group.name g /\
  GroupSpec.profile_email (GroupEntity.spec (groupOf kebabCase url g ms))
  = Group.email g.
Proof.
  unfold groupOf. generalize (nameOf <$> ms). intros ns.
  assert (H : forall ge,
             GroupEntity.apiVersion (fold_left GroupEntity.push_member ns ge)
             = GroupEntity.apiVersion ge /\
             GroupSpec.type
               (GroupEntity.spec (fold_left GroupEntity.push_member ns ge))
             = GroupSpec.type (GroupEntity.spec ge) /\
             GroupSpec.children
               (GroupEntity.spec (fold_left GroupEntity.push_member ns ge))
             = GroupSpec.children (GroupEntity.spec ge)).
  { induction ns as [| n ns IH]; intros ge; simpl; [auto |].
    destruct (IH (GroupEntity.push_member ge n)) as (H1 & H2 & H3).
    rewrite H1, H2, H3. auto. }
  destruct (H (newGroupEntity kebabCase url g)) as (H1 & H2 & H3).
  destruct (push_members_profile ns (newGroupEntity kebabCase url g))
    as (H4 & H5 & H6).
  rewrite H1, H2, H3, H4, H5, H6, push_members_metadata, push_members_members.
  repeat split; reflexivity.
Qed.

Lemma memberAnswers_fetchedBy cust qc lnew :
  fetchedBy cust qc lnew -> memberAnswers lnew = [].
Proof.
  intros H. destruct (fetchedBy_calls _ _ _ H) as (_ & Hall).
  apply omap_nothing. eapply Forall_impl; [exact Hall |].
  intros [] He; simpl in He; try contradiction. reflexivity.
Qed.

(** A run that collects its entities has built them from the kept groups
    and from the answers to its member calls. *)
Lemma collect_answers this h conn ents new :
  collect kebabCase this h = (inr (conn, ents), h ++ new) ->
  exists gc,
    getOptionalStringArray (config this) "google.providers.ggroups.groups"
      = inr gc /\
    length (memberAnswers new) = length (keep gc (listedGroups new)) /\
    ents = built kebabCase (lastURL new) (keep gc (listedGroups new))
             (memberAnswers new).
Proof.
  intros H. apply collect_inr in H
    as (client & cust & gc & qc & lnew & rs & _ & _ & _ & Hgc & _ & _
        & Hshape & Hlen & Hh & -> & _).
  apply app_inv_head in Hh. subst new.
  exists gc. rewrite listedGroups_loop, lastURL_loop.
  assert (Hans : memberAnswers
                   (lnew ++ loopEvents (keep gc (listedGroups lnew)) rs) = rs).
  { unfold memberAnswers. rewrite omap_app.
    change (omap memberAnswer lnew) with (memberAnswers lnew).
    rewrite (memberAnswers_fetchedBy _ _ _ Hshape). simpl.
    apply memberAnswers_loopEvents. exact Hlen. }
  rewrite Hans. auto.
Qed.

Lemma userEntities_app a b :
  userEntities (a ++ b) = userEntities a ++ userEntities b.
Proof. apply omap_app. Qed.

Lemma userEntities_entitiesOf url g ms :
  userEntities (entitiesOf kebabCase url g ms) = userOf kebabCase url g <$> ms.
Proof.
  unfold entitiesOf. rewrite userEntities_app. simpl. rewrite app_nil_r.
  induction ms as [| m ms IH]; simpl; [reflexivity |]. f_equal. exact IH.
Qed.

Lemma built_users url gs rs :
  length rs = length gs ->
  (fun u => Metadata.uid (UserEntity.metadata u))
    <$> userEntities (built kebabCase url gs rs)
  = Member.id <$> concat (membersOf <$> rs) /\
  (fun u => UserSpec.profile_email (UserEntity.spec u))
    <$> userEntities (built kebabCase url gs rs)
  = Member.email <$> concat (membersOf <$> rs) /\
  length (built kebabCase url gs rs)
  = length gs + length (concat (membersOf <$> rs)).
Proof.
  revert rs. induction gs as [| g gs IH]; intros [| r rs] Hlen;
    simpl in *; try discriminate; [auto |].
  destruct (IH rs ltac:(lia)) as (IH1 & IH2 & IH3).
  rewrite userEntities_app, userEntities_entitiesOf, !fmap_app, IH1, IH2.
  rewrite !length_app, IH3. unfold entitiesOf at 1.
  rewrite length_app, length_fmap. simpl.
  rewrite <- !list_fmap_compose.
  repeat split; try reflexivity. unfold fmap in *. lia.
Qed.

(** One user entity per member record returned, in the order of the
    answers and with nothing merged: a member of two kept groups has two
    user entities.  With one group entity per member call, that is all a
    run collects. *)
Theorem one_user_entity_per_fetched_member this h conn ents new :
  collect kebabCase this h = (inr (conn, ents), h ++ new) ->
  (fun u => Metadata.uid (UserEntity.metadata u)) <$> userEntities ents
  = Member.id <$> fetchedMembers new /\
  (fun u => UserSpec.profile_email (UserEntity.spec u)) <$> userEntities ents
  = Member.email <$> fetchedMembers new /\
  length ents = length (membersListCalls new) + length (fetchedMembers new).
Proof.
  intros H. pose proof (collect_answers _ _ _ _ _ H) as (gc & Hgc & Hlen & ->).
  apply collect_shape in H
    as (cust & gc' & qc & new' & rs & _ & Hgc' & _ & _ & Hh & _ & _ & Hcalls & _).
  apply app_inv_head in Hh. subst new'.
  rewrite Hgc in Hgc'. inversion Hgc'; subst gc'.
  rewrite Hcalls, length_fmap. unfold fetchedMembers.
  apply built_users. exact Hlen.
Qed.

Lemma built_groups url gs rs :
  length rs = length gs ->
  (fun G => Metadata.uid (GroupEntity.metadata G))
    <$> groupEntities (built kebabCase url gs rs) = Group.id <$> gs /\
  (fun G => Metadata.name (GroupEntity.metadata G))
    <$> groupEntities (built kebabCase url gs rs)
  = (fun g => kebabCase (Group.name g)) <$> gs /\
  (fun G => Metadata.description (GroupEntity.metadata G))
    <$> groupEntities (built kebabCase url gs rs) = Group.description <$> gs /\
  (fun G => GroupSpec.profile_displayName (GroupEntity.spec G))
    <$> groupEntities (built kebabCase url gs rs) = Group.name <$> gs /\
  (fun G => GroupSpec.profile_email (GroupEntity.spec G))
    <$> groupEntities (built kebabCase url gs rs) = Group.email <$> gs /\
  (fun G => GroupSpec.members (GroupEntity.spec G))
    <$> groupEntities (built kebabCase url gs rs)
  = (fun r => nameOf <$> membersOf r) <$> rs.
Proof.
  intros Hlen. rewrite groupEntities_built by exact Hlen.
  revert rs Hlen. induction gs as [| g gs IH]; intros [| r rs] Hlen;
    simpl in *; try discriminate; [repeat split; reflexivity |].
  destruct (IH rs ltac:(lia)) as (I1 & I2 & I3 & I4 & I5 & I6).
  destruct (groupOf_fields url g (membersOf r))
    as (_ & _ & Hm & _ & _ & H6 & H7 & H8).
  repeat split;
    (f_equal; [rewrite ?Hm, ?H6, ?H7, ?H8; reflexivity | assumption]).
Qed.

(** One group entity per kept group, in order and with nothing merged (a
    group listed twice has two entities): it copies the group's id,
    description, display name and address, is named by [kebabCase] of the
    display name, and its members are the names made from the member
    records its own member call returned. *)
Theorem group_entities_follow_the_kept_groups this h conn ents new gc :
  getOptionalStringArray (config this) "google.providers.ggroups.groups"
    = inr gc ->
  collect kebabCase this h = (inr (conn, ents), h ++ new) ->
  (fun G => Metadata.uid (GroupEntity.metadata G)) <$> groupEntities ents
  = Group.id <$> keep gc (listedGroups new) /\
  (fun G => Metadata.name (GroupEntity.metadata G)) <$> groupEntities ents
  = (fun g => kebabCase (Group.name g)) <$> keep gc (listedGroups new) /\
  (fun G => Metadata.description (GroupEntity.metadata G)) <$> groupEntities ents
  = Group.description <$> keep gc (listedGroups new) /\
  (fun G => GroupSpec.profile_displayName (GroupEntity.spec G))
    <$> groupEntities ents
  = Group.name <$> keep gc (listedGroups new) /\
  (fun G => GroupSpec.profile_email (GroupEntity.spec G)) <$> groupEntities ents
  = Group.email <$> keep gc (listedGroups new) /\
  (fun G => GroupSpec.members (GroupEntity.spec G)) <$> groupEntities ents
  = (fun r => (fun m => split_head "@" (default "" (Member.email m)))
                <$> membersOf r) <$> memberAnswers new.
Proof.
  intros Hgc H. apply collect_answers in H as (gc' & Hgc' & Hlen & ->).
  rewrite Hgc in Hgc'. inversion Hgc'; subst gc'.
  apply built_groups. exact Hlen.
Qed.

Lemma split_head_no_at s : hasAt (split_head "@" s) = false.
Proof.
  induction s as [| c s IH]; simpl; [reflexivity |].
  destruct (Ascii.eqb c "@") eqn:E; simpl; [reflexivity |].
  rewrite E. exact IH.
Qed.

(** An address without [@] is the name as it is. *)
Theorem address_without_at_is_the_name s :
  hasAt s = false -> split_head "@" s = s.
Proof.
  induction s as [| c s IH]; simpl; [reflexivity |].
  destruct (Ascii.eqb c "@"); [discriminate |].
  intros H. f_equal. apply IH. exact H.
Qed.

(** Every user entity a run collects belongs to one group entity of the
    same run: its [memberOf] is exactly that group's name, the group lists
    the user's name among its members, and both carry the same
    annotations.  Its kind is User, and its name holds no [@]. *)
Theorem user_entity_belongs_to_a_collected_group this h conn ents h1 u :
  collect kebabCase this h = (inr (conn, ents), h1) ->
  Entity.OfUser u ∈ ents ->
  UserEntity.apiVersion u = "backstage.io/v1alpha1" /\
  UserEntity.kind u = "User" /\
  Metadata.tags (UserEntity.metadata u) = ["google-groups"] /\
  hasAt (Metadata.name (UserEntity.metadata u)) = false /\
  exists G,
    Entity.OfGroup G ∈ ents /\
    UserSpec.memberOf (UserEntity.spec u)
    = [Metadata.name (GroupEntity.metadata G)] /\
    Metadata.name (UserEntity.metadata u)
      ∈ GroupSpec.members (GroupEntity.spec G) /\
    Metadata.annotations (UserEntity.metadata u)
    = Metadata.annotations (GroupEntity.metadata G).
Proof.
  intros H Hu.
  apply collect_shape in H
    as (cust & gc & qc & new & rs & _ & _ & _ & _ & _ & _ & _ & _ & _ & -> & _).
  apply built_from in Hu as (g & r & Hz & Hu).
  pose proof Hu as Hu'.
  apply entitiesOf_cases in Hu as [(m & Hm & Heq) | Heq]; [| discriminate].
  inversion Heq; subst u. simpl.
  split; [reflexivity |]. split; [reflexivity |]. split; [reflexivity |].
  split; [apply split_head_no_at |].
  exists (groupOf kebabCase (lastURL new) g (membersOf r)).
  destruct (groupOf_fields (lastURL new) g (membersOf r))
    as (_ & _ & Hmeta & _ & _ & Hmem & _ & _).
  rewrite Hmeta, Hmem.
  split; [eapply built_includes; [exact Hz |];
          apply elem_of_app; right; left |].
  split; [reflexivity |]. split; [| reflexivity].
  apply (list_elem_of_fmap_2 nameOf). exact Hm.
Qed.

(** Every group entity a run collects is a flat team: type team, no
    children; and each name in its members is the name of a user entity of
    the same run whose [memberOf] is exactly this group's name. *)
Theorem group_entity_lists_collected_users this h conn ents h1 G :
  collect kebabCase this h = (inr (conn, ents), h1) ->
  Entity.OfGroup G ∈ ents ->
  GroupEntity.apiVersion G = "backstage.io/v1alpha1" /\
  GroupEntity.kind G = "Group" /\
  Metadata.tags (GroupEntity.metadata G) = ["google-groups"] /\
  GroupSpec.type (GroupEntity.spec G) = "team" /\
  GroupSpec.children (GroupEntity.spec G) = [] /\
  forall n,
    n ∈ GroupSpec.members (GroupEntity.spec G) ->
    exists u,
      Entity.OfUser u ∈ ents /\
      Metadata.name (UserEntity.metadata u) = n /\
      UserSpec.memberOf (UserEntity.spec u)
      = [Metadata.name (GroupEntity.metadata G)].
Proof.
  intros H HG.
  apply collect_shape in H
    as (cust & gc & qc & new & rs & _ & _ & _ & _ & _ & _ & _ & _ & _ & -> & _).
  apply built_from in HG as (g & r & Hz & HG).
  apply entitiesOf_cases in HG as [(m & _ & Heq) | Heq]; [discriminate |].
  inversion Heq; subst G.
  destruct (groupOf_fields (lastURL new) g (membersOf r))
    as (H1 & H2 & Hmeta & H4 & H5 & Hmem & _ & _).
  rewrite H1, H2, Hmeta, H4, H5, Hmem.
  repeat (split; [reflexivity |]).
  intros n Hn. apply list_elem_of_fmap in Hn as (m & -> & Hm).
  exists (userOf kebabCase (lastURL new) g m).
  split; [| split; reflexivity].
  eapply built_includes; [exact Hz |]. apply elem_of_app. left.
  apply (list_elem_of_fmap_2 (Entity.OfUser ∘ userOf kebabCase (lastURL new) g)).
  exact Hm.
Qed.

(** A kept group whose member call is answered without a members field
    still gets its group entity, with no members. *)
Theorem group_without_members_field_is_kept this h conn ents new p r :
  collect kebabCase this h = (inr (conn, ents), h ++ new) ->
  MembersList p (inr r) ∈ new ->
  data_members r = None ->
  exists G,
    Entity.OfGroup G ∈ ents /\
    Metadata.uid (GroupEntity.metadata G) = groupKey p /\
    GroupSpec.members (GroupEntity.spec G) = [].
Proof.
  intros H Hin Hnone.
  apply collect_shape in H
    as (cust & gc & qc & new' & rs & _ & _ & _ & _ & Hh & _ & _ & _ & Hmem & -> & _).
  apply app_inv_head in Hh. subst new'.
  apply Hmem in Hin as (g & r' & Hz & -> & Hr). inversion Hr; subst r'.
  exists (groupOf kebabCase (lastURL new) g (membersOf r)).
  destruct (groupOf_fields (lastURL new) g (membersOf r))
    as (_ & _ & Hmeta & _ & _ & Hm & _ & _).
  rewrite Hmeta, Hm.
  split; [eapply built_includes; [exact Hz |];
          apply elem_of_app; right; left |].
  split; [reflexivity |].
  unfold membersOf. rewrite Hnone. reflexivity.
Qed.

End Collected.

(** ** The further theorems at the sample runs *)

Lemma run_before_connect_throws_sample :
  run kebabAscii unconnected []
  = (inl (ProviderError "Provider connection not initialized."),
     [] ++ [LogError (ProviderError "Provider connection not initialized.")]).
Proof.
  apply (run_before_connect_throws kebabAscii unconnected []). reflexivity.
Defined.

Lemma ready_provider_passes_lifecycle_sample :
  DirectoryApiError "503 Service Unavailable"
    <> ProviderError "Provider connection not initialized." /\
  DirectoryApiError "503 Service Unavailable"
    <> ProviderError "Google Admin SDK Directory API client not initialized." /\
  initializeGoogleApiClient
    (connect (construct (sampleConfig (inr "C12nfslfo") None None)) sampleSink)
    (inr brokenDirectory)
  = connect
      (initializeGoogleApiClient
         (construct (sampleConfig (inr "C12nfslfo") None None))
         (inr brokenDirectory))
      sampleSink.
Proof.
  apply (ready_provider_passes_lifecycle kebabAscii
           (sampleConfig (inr "C12nfslfo") None None) sampleSink
           brokenDirectory []).
  vm_compute. reflexivity.
Defined.

Lemma customerId_failure_is_logged_sample :
  run kebabAscii noCustomerProvider []
  = (inl (ConfigError
            "Missing required config value at 'google.providers.ggroups.customerId'"),
     [] ++ [LogError
              (ConfigError
                 "Missing required config value at 'google.providers.ggroups.customerId'")]).
Proof.
  apply (customerId_failure_is_logged kebabAscii sampleSink sampleDirectory);
    reflexivity.
Defined.

Lemma optional_list_failure_is_not_logged_sample :
  run kebabAscii badGroupsProvider []
  = (inl (ConfigError
            "Invalid type in config for key 'google.providers.ggroups.groups'"),
     []).
Proof.
  apply (optional_list_failure_is_not_logged kebabAscii sampleSink
           sampleDirectory "C12nfslfo").
  - reflexivity.
  - reflexivity.
  - reflexivity.
  - left. reflexivity.
Defined.

Lemma both_lists_error_comes_first_sample :
  exists e,
    e = ProviderError
          "Neither google.providers.ggroups.groups or google.providers.ggroups.query are defined as config values." /\
    run kebabAscii allowAndEmptyQueryProvider [] = (inl e, [] ++ [LogError e]).
Proof.
  apply (both_lists_error_comes_first kebabAscii sampleSink sampleDirectory
           "C12nfslfo" ["g1@x.com"] []); reflexivity.
Defined.

Lemma empty_query_list_error_sample :
  exists e,
    e = ProviderError
          "google.providers.ggroups.query array has no query expressions defined." /\
    run kebabAscii emptyQueryProvider [] = (inl e, [] ++ [LogError e]).
Proof.
  apply (empty_query_list_error kebabAscii sampleSink sampleDirectory
           "C12nfslfo"); reflexivity.
Defined.

Lemma run_logs_only_what_it_throws_sample :
  fst (run kebabAscii unconnected [])
  = inl (ProviderError "Provider connection not initialized.") /\
  [LogError (ProviderError "Provider connection not initialized.")]
  = [LogError (ProviderError "Provider connection not initialized.")] /\
  fromChecks (ProviderError "Provider connection not initialized.").
Proof.
  apply (run_logs_only_what_it_throws kebabAscii unconnected []
           [LogError (ProviderError "Provider connection not initialized.")]).
  - reflexivity.
  - left.
Defined.

Lemma listing_calls_follow_the_configuration_sample :
  groupsListCalls (snd (run kebabAscii twoQueriesProvider []))
    `prefix_of` listingParams "C12nfslfo" (Some ["a"; "b"]) /\
  (fst (run kebabAscii twoQueriesProvider []) = inr tt ->
   groupsListCalls (snd (run kebabAscii twoQueriesProvider []))
   = listingParams "C12nfslfo" (Some ["a"; "b"])).
Proof.
  apply (listing_calls_follow_the_configuration kebabAscii twoQueriesProvider []);
    reflexivity.
Defined.

Lemma member_calls_follow_the_kept_groups_sample :
  membersListCalls (snd (run kebabAscii allowProvider []))
    `prefix_of` memberKey
                  <$> keep (Some ["g1@x.com"])
                        (listedGroups (snd (run kebabAscii allowProvider []))) /\
  (fst (run kebabAscii allowProvider []) = inr tt ->
   membersListCalls (snd (run kebabAscii allowProvider []))
   = memberKey
       <$> keep (Some ["g1@x.com"])
             (listedGroups (snd (run kebabAscii allowProvider [])))).
Proof.
  apply (member_calls_follow_the_kept_groups kebabAscii allowProvider []);
    reflexivity.
Defined.

Lemma sink_call_is_last_and_decides_the_run_sample :
  exists pre des,
    (GroupsList listAll (inr answerAll)
       :: loopEvents [g1; g2] [membersG1; membersNone])
    ++ [ApplyMutation
          (MutationFull
             (deferred
                <$> built kebabAscii urlAll [g1; g2] [membersG1; membersNone]))
          None]
    = pre
      ++ [ApplyMutation
            (MutationFull
               (deferred
                  <$> built kebabAscii urlAll [g1; g2] [membersG1; membersNone]))
            None] /\
    applyMutations pre = [] /\
    MutationFull
      (deferred <$> built kebabAscii urlAll [g1; g2] [membersG1; membersNone])
    = MutationFull des /\
    des <> [] /\
    fst (run kebabAscii allGroupsProvider []) = inr tt.
Proof.
  apply (sink_call_is_last_and_decides_the_run kebabAscii allGroupsProvider []
           ((GroupsList listAll (inr answerAll)
               :: loopEvents [g1; g2] [membersG1; membersNone])
            ++ [ApplyMutation
                  (MutationFull
                     (deferred
                        <$> built kebabAscii urlAll [g1; g2]
                              [membersG1; membersNone]))
                  None])
           (MutationFull
              (deferred
                 <$> built kebabAscii urlAll [g1; g2] [membersG1; membersNone]))
           None).
  - vm_compute. reflexivity.
  - apply elem_of_app. right. left.
Defined.

Lemma one_second_per_member_call_sample :
  sleeps (snd (run kebabAscii allGroupsProvider []))
  = replicate (length (sleeps (snd (run kebabAscii allGroupsProvider [])))) 1000%Z /\
  (fst (run kebabAscii allGroupsProvider []) = inr tt \/
   (exists msg, fst (run kebabAscii allGroupsProvider []) = inl (SinkError msg)) ->
   length (sleeps (snd (run kebabAscii allGroupsProvider [])))
   = length (membersListCalls (snd (run kebabAscii allGroupsProvider []))) /\
   totalSleep (snd (run kebabAscii allGroupsProvider []))
   = (1000
      * Z.of_nat
          (length (membersListCalls (snd (run kebabAscii allGroupsProvider [])))))%Z).
Proof.
  apply (one_second_per_member_call kebabAscii allGroupsProvider []).
  reflexivity.
Defined.

Lemma long_runs_outlast_the_task_timeout_sample :
  (timeout_ms ggroups_sync
   < totalSleep (snd (run kebabAscii manyGroupsProvider [])))%Z.
Proof.
  apply (long_runs_outlast_the_task_timeout kebabAscii manyGroupsProvider []).
  - reflexivity.
  - vm_compute. reflexivity.
  - apply Nat.ltb_lt. vm_compute. reflexivity.
Defined.

Lemma user_entity_belongs_to_a_collected_group_sample :
  UserEntity.apiVersion (userOf kebabAscii urlAll g1 jdoe)
  = "backstage.io/v1alpha1" /\
  UserEntity.kind (userOf kebabAscii urlAll g1 jdoe) = "User" /\
  Metadata.tags (UserEntity.metadata (userOf kebabAscii urlAll g1 jdoe))
  = ["google-groups"] /\
  hasAt (Metadata.name (UserEntity.metadata (userOf kebabAscii urlAll g1 jdoe)))
  = false /\
  exists G,
    Entity.OfGroup G
      ∈ built kebabAscii urlAll [g1; g2] [membersG1; membersNone] /\
    UserSpec.memberOf (UserEntity.spec (userOf kebabAscii urlAll g1 jdoe))
    = [Metadata.name (GroupEntity.metadata G)] /\
    Metadata.name (UserEntity.metadata (userOf kebabAscii urlAll g1 jdoe))
      ∈ GroupSpec.members (GroupEntity.spec G) /\
    Metadata.annotations (UserEntity.metadata (userOf kebabAscii urlAll g1 jdoe))
    = Metadata.annotations (GroupEntity.metadata G).
Proof.
  apply (user_entity_belongs_to_a_collected_group kebabAscii allGroupsProvider
           [] sampleSink
           (built kebabAscii urlAll [g1; g2] [membersG1; membersNone])
           (GroupsList listAll (inr answerAll)
              :: loopEvents [g1; g2] [membersG1; membersNone])).
  - vm_compute. reflexivity.
  - left.
Defined.

Lemma group_entity_lists_collected_users_sample :
  GroupEntity.apiVersion (groupOf kebabAscii urlAll g1 [jdoe; asmith])
  = "backstage.io/v1alpha1" /\
  GroupEntity.kind (groupOf kebabAscii urlAll g1 [jdoe; asmith]) = "Group" /\
  Metadata.tags (GroupEntity.metadata (groupOf kebabAscii urlAll g1 [jdoe; asmith]))
  = ["google-groups"] /\
  GroupSpec.type (GroupEntity.spec (groupOf kebabAscii urlAll g1 [jdoe; asmith]))
  = "team" /\
  GroupSpec.children
    (GroupEntity.spec (groupOf kebabAscii urlAll g1 [jdoe; asmith])) = [] /\
  forall n,
    n ∈ GroupSpec.members
          (GroupEntity.spec (groupOf kebabAscii urlAll g1 [jdoe; asmith])) ->
    exists u,
      Entity.OfUser u
        ∈ built kebabAscii urlAll [g1; g2] [membersG1; membersNone] /\
      Metadata.name (UserEntity.metadata u) = n /\
      UserSpec.memberOf (UserEntity.spec u)
      = [Metadata.name
           (GroupEntity.metadata (groupOf kebabAscii urlAll g1 [jdoe; asmith]))].
Proof.
  apply (group_entity_lists_collected_users kebabAscii allGroupsProvider
           [] sampleSink
           (built kebabAscii urlAll [g1; g2] [membersG1; membersNone])
           (GroupsList listAll (inr answerAll)
              :: loopEvents [g1; g2] [membersG1; membersNone])).
  - vm_compute. reflexivity.
  - simpl. unfold entitiesOf. simpl. do 2 right. left.
Defined.

Lemma one_user_entity_per_fetched_member_sample :
  (fun u => Metadata.uid (UserEntity.metadata u))
    <$> userEntities (built kebabAscii urlAll [g1; g2] [membersG1; membersNone])
  = Member.id
      <$> fetchedMembers
            (GroupsList listAll (inr answerAll)
               :: loopEvents [g1; g2] [membersG1; membersNone]) /\
  (fun u => UserSpec.profile_email (UserEntity.spec u))
    <$> userEntities (built kebabAscii urlAll [g1; g2] [membersG1; membersNone])
  = Member.email
      <$> fetchedMembers
            (GroupsList listAll (inr answerAll)
               :: loopEvents [g1; g2] [membersG1; membersNone]) /\
  length (built kebabAscii urlAll [g1; g2] [membersG1; membersNone])
  = length
      (membersListCalls
         (GroupsList listAll (inr answerAll)
            :: loopEvents [g1; g2] [membersG1; membersNone]))
    + length
        (fetchedMembers
           (GroupsList listAll (inr answerAll)
              :: loopEvents [g1; g2] [membersG1; membersNone])).
Proof.
  apply (one_user_entity_per_fetched_member kebabAscii allGroupsProvider []
           sampleSink).
  vm_compute. reflexivity.
Defined.

Lemma group_entities_follow_the_kept_groups_sample :
  (fun G => Metadata.uid (GroupEntity.metadata G))
    <$> groupEntities (built kebabAscii urlAll [g1] [membersG1])
  = Group.id
      <$> keep (Some ["g1@x.com"])
            (listedGroups
               (GroupsList listAll (inr answerAll) :: loopEvents [g1] [membersG1])) /\
  (fun G => Metadata.name (GroupEntity.metadata G))
    <$> groupEntities (built kebabAscii urlAll [g1] [membersG1])
  = (fun g => kebabAscii (Group.name g))
      <$> keep (Some ["g1@x.com"])
            (listedGroups
               (GroupsList listAll (inr answerAll) :: loopEvents [g1] [membersG1])) /\
  (fun G => Metadata.description (GroupEntity.metadata G))
    <$> groupEntities (built kebabAscii urlAll [g1] [membersG1])
  = Group.description
      <$> keep (Some ["g1@x.com"])
            (listedGroups
               (GroupsList listAll (inr answerAll) :: loopEvents [g1] [membersG1])) /\
  (fun G => GroupSpec.profile_displayName (GroupEntity.spec G))
    <$> groupEntities (built kebabAscii urlAll [g1] [membersG1])
  = Group.name
      <$> keep (Some ["g1@x.com"])
            (listedGroups
               (GroupsList listAll (inr answerAll) :: loopEvents [g1] [membersG1])) /\
  (fun G => GroupSpec.profile_email (GroupEntity.spec G))
    <$> groupEntities (built kebabAscii urlAll [g1] [membersG1])
  = Group.email
      <$> keep (Some ["g1@x.com"])
            (listedGroups
               (GroupsList listAll (inr answerAll) :: loopEvents [g1] [membersG1])) /\
  (fun G => GroupSpec.members (GroupEntity.spec G))
    <$> groupEntities (built kebabAscii urlAll [g1] [membersG1])
  = (fun r => (fun m => split_head "@" (default "" (Member.email m)))
                <$> membersOf r)
      <$> memberAnswers
            (GroupsList listAll (inr answerAll) :: loopEvents [g1] [membersG1]).
Proof.
  apply (group_entities_follow_the_kept_groups kebabAscii allowProvider []
           sampleSink).
  - reflexivity.
  - vm_compute. reflexivity.
Defined.

Lemma collected_entities_carry_last_url_sample :
  Metadata.annotations
    (Entity.metadata (Entity.OfGroup (groupOf kebabAscii urlB g1 [jdoe; asmith])))
    !! ANNOTATION_LOCATION
  = Some ("ggroups:"
          +:+ lastURL
                (queryEvents "C12nfslfo" ["a"; "b"] [answerA; answerB]
                 ++ loopEvents [g1; g2] [membersG1; membersNone])) /\
  Metadata.annotations
    (Entity.metadata (Entity.OfGroup (groupOf kebabAscii urlB g1 [jdoe; asmith])))
    !! ANNOTATION_ORIGIN_LOCATION
  = Some ("ggroups:"
          +:+ lastURL
                (queryEvents "C12nfslfo" ["a"; "b"] [answerA; answerB]
                 ++ loopEvents [g1; g2] [membersG1; membersNone])).
Proof.
  apply (collected_entities_carry_last_url kebabAscii twoQueriesProvider []
           sampleSink
           (built kebabAscii urlB [g1; g2] [membersG1; membersNone])).
  - vm_compute. reflexivity.
  - simpl. unfold entitiesOf. simpl. do 2 right. left.
Defined.

Lemma split_head_local_sample :
  split_head "@" ("jdoe" +:+ "@" +:+ "example.com") = "jdoe".
Proof.
  apply (split_head_local "jdoe" "example.com").
  intros c Hc. simpl in Hc.
  repeat (apply elem_of_cons in Hc as [-> | Hc]; [discriminate |]).
  apply elem_of_nil in Hc. contradiction.
Defined.

Lemma address_without_at_is_the_name_sample : split_head "@" "jdoe" = "jdoe".
Proof. apply (address_without_at_is_the_name "jdoe"). reflexivity. Defined.

Lemma member_without_email_stops_the_run_sample :
  (exists msg, fst (run kebabAscii domainProvider []) = inl (TypeError msg)) /\
  last [GroupsList listAll
          (inr {| data_groups := Some [g1]; request_responseURL := urlAll |});
        MembersList (memberKey g1) (inr membersDomain)]
  = Some (MembersList (memberKey g1) (inr membersDomain)) /\
  applyMutations
    [GroupsList listAll
       (inr {| data_groups := Some [g1]; request_responseURL := urlAll |});
     MembersList (memberKey g1) (inr membersDomain)] = [].
Proof.
  apply (member_without_email_stops_the_run kebabAscii domainProvider []
           [GroupsList listAll
              (inr {| data_groups := Some [g1]; request_responseURL := urlAll |});
            MembersList (memberKey g1) (inr membersDomain)]
           (memberKey g1) membersDomain wholeDomain).
  - vm_compute. reflexivity.
  - right. left.
  - right. left.
  - reflexivity.
Defined.

Lemma rejected_call_stops_the_run_sample :
  fst (run kebabAscii brokenProvider [])
  = inl (DirectoryApiError "503 Service Unavailable") /\
  last [GroupsList listAll (inr answerAll);
        MembersList (memberKey g1) (inr membersG1); Sleep 1000;
        MembersList (memberKey g2) (inl "503 Service Unavailable")]
  = Some (MembersList (memberKey g2) (inl "503 Service Unavailable")) /\
  logged [GroupsList listAll (inr answerAll);
          MembersList (memberKey g1) (inr membersG1); Sleep 1000;
          MembersList (memberKey g2) (inl "503 Service Unavailable")] = [] /\
  applyMutations
    [GroupsList listAll (inr answerAll);
     MembersList (memberKey g1) (inr membersG1); Sleep 1000;
     MembersList (memberKey g2) (inl "503 Service Unavailable")] = [].
Proof.
  apply (rejected_call_stops_the_run kebabAscii brokenProvider []
           [GroupsList listAll (inr answerAll);
            MembersList (memberKey g1) (inr membersG1); Sleep 1000;
            MembersList (memberKey g2) (inl "503 Service Unavailable")]
           (MembersList (memberKey g2) (inl "503 Service Unavailable"))
           "503 Service Unavailable").
  - vm_compute. reflexivity.
  - do 3 right. left.
  - reflexivity.
Defined.

Lemma group_without_members_field_is_kept_sample :
  exists G,
    Entity.OfGroup G
      ∈ built kebabAscii urlAll [g1; g2] [membersG1; membersNone] /\
    Metadata.uid (GroupEntity.metadata G) = groupKey (memberKey g2) /\
    GroupSpec.members (GroupEntity.spec G) = [].
Proof.
  apply (group_without_members_field_is_kept kebabAscii allGroupsProvider []
           sampleSink
           (built kebabAscii urlAll [g1; g2] [membersG1; membersNone])
           (GroupsList listAll (inr answerAll)
              :: loopEvents [g1; g2] [membersG1; membersNone])
           (memberKey g2) membersNone).
  - vm_compute. reflexivity.
  - simpl. do 3 right. left.
  - reflexivity.
Defined.
